(** * Expression cleaning of the goto-program converter

    A shallow embedding of [src/goto-programs/goto_clean_expr.cpp]:
    [needs_cleaning], [rewrite_boolean], [clean_expr],
    [clean_expr_address_of], [remove_gcc_conditional_expression] and
    [make_compound_literal].

    Expressions are CBMC [exprt] trees: an id, the named attribute the
    functions read (side-effect statement, symbol identifier, constant
    value), a type, a source location and the ordered operands.  The
    converter's mutable fields (symbol table, fresh-name counter, scope
    stack, current lifetime) are threaded by a state-and-error monad;
    [None] is a failed PRECONDITION / INVARIANT (a fatal diagnostic).
    The goto program under construction ([dest]) is passed and returned
    explicitly, as the C++ passes it by reference. The [mode] argument is
    only forwarded in the source and is dropped. *)

From Stdlib Require Import List Bool Arith Lia String ZArith.
Import ListNotations.
Open Scope string_scope.
Open Scope list_scope.
Set Warnings "-register-all".

(** ** Data model *)

Inductive irep_id :=
| ID_and | ID_or | ID_implies | ID_if | ID_comma | ID_typecast
| ID_side_effect | ID_compound_literal | ID_forall | ID_exists
| ID_address_of | ID_index | ID_dereference | ID_string_constant
| ID_symbol | ID_constant | ID_nil
| ID_empty            (* the id of a default-constructed [exprt] *)
| ID_other (n : nat).

Definition irep_id_eqb (a b : irep_id) : bool :=
  match a, b with
  | ID_and, ID_and | ID_or, ID_or | ID_implies, ID_implies
  | ID_if, ID_if | ID_comma, ID_comma | ID_typecast, ID_typecast
  | ID_side_effect, ID_side_effect
  | ID_compound_literal, ID_compound_literal
  | ID_forall, ID_forall | ID_exists, ID_exists
  | ID_address_of, ID_address_of | ID_index, ID_index
  | ID_dereference, ID_dereference
  | ID_string_constant, ID_string_constant
  | ID_symbol, ID_symbol | ID_constant, ID_constant | ID_nil, ID_nil
  | ID_empty, ID_empty => true
  | ID_other n, ID_other m => Nat.eqb n m
  | _, _ => false
  end.

(** The [statement] of a side-effect expression. *)
Inductive statement :=
| ID_gcc_conditional_expression
| ID_statement_expression
| ID_assign
| ID_function_call
| ID_statement_other (n : nat).

Definition statement_eqb (a b : statement) : bool :=
  match a, b with
  | ID_gcc_conditional_expression, ID_gcc_conditional_expression
  | ID_statement_expression, ID_statement_expression
  | ID_assign, ID_assign | ID_function_call, ID_function_call => true
  | ID_statement_other n, ID_statement_other m => Nat.eqb n m
  | _, _ => false
  end.

(** The named sub-trees of an expression that the code reads. *)
Inductive attr :=
| A_none
| A_statement (s : statement)   (* side_effect_exprt::get_statement *)
| A_identifier (n : nat)        (* symbol_exprt::get_identifier *)
| A_bool (b : bool)             (* true_exprt / false_exprt *)
| A_value (n : nat).            (* any other constant *)

Inductive typet :=
| bool_typet
| empty_typet
| code_typet
| typet_nil                     (* type of a default-constructed exprt *)
| typet_other (n : nat).

Definition typet_eqb (a b : typet) : bool :=
  match a, b with
  | bool_typet, bool_typet | empty_typet, empty_typet
  | code_typet, code_typet | typet_nil, typet_nil => true
  | typet_other n, typet_other m => Nat.eqb n m
  | _, _ => false
  end.

(** A source location; [None] is the nil location. *)
Definition source_locationt := option nat.

Inductive exprt :=
| mk_expr (id : irep_id) (a : attr) (type : typet)
          (loc : source_locationt) (operands : list exprt).

Definition expr_id (e : exprt) : irep_id :=
  match e with mk_expr i _ _ _ _ => i end.
Definition expr_attr (e : exprt) : attr :=
  match e with mk_expr _ a _ _ _ => a end.
Definition expr_type (e : exprt) : typet :=
  match e with mk_expr _ _ t _ _ => t end.
Definition expr_loc (e : exprt) : source_locationt :=
  match e with mk_expr _ _ _ l _ => l end.
Definition operands (e : exprt) : list exprt :=
  match e with mk_expr _ _ _ _ ops => ops end.
Definition set_operands (e : exprt) (ops : list exprt) : exprt :=
  match e with mk_expr i a t l _ => mk_expr i a t l ops end.

Definition is_nil (e : exprt) : bool := irep_id_eqb (expr_id e) ID_nil.
Definition is_boolean (e : exprt) : bool := typet_eqb (expr_type e) bool_typet.

Definition get_statement (e : exprt) : option statement :=
  match expr_attr e with A_statement s => Some s | _ => None end.

Definition statement_is (e : exprt) (s : statement) : bool :=
  match get_statement e with Some s' => statement_eqb s' s | None => false end.

(** Constructors of [std_expr.h] used by the code. *)
Definition nil_exprt : exprt := mk_expr ID_nil A_none typet_nil None [].
Definition default_exprt : exprt := mk_expr ID_empty A_none typet_nil None [].
Definition true_exprt : exprt := mk_expr ID_constant (A_bool true) bool_typet None [].
Definition false_exprt : exprt := mk_expr ID_constant (A_bool false) bool_typet None [].

(** [if_exprt(c, t, f)] takes the type of [t]; [if_exprt(c, t, f, ty)]
    takes [ty]. *)
Definition if_exprt (c t f : exprt) : exprt :=
  mk_expr ID_if A_none (expr_type t) None [c; t; f].
Definition if_exprt_typed (c t f : exprt) (ty : typet) : exprt :=
  mk_expr ID_if A_none ty None [c; t; f].

Definition typecast_exprt (op : exprt) (ty : typet) : exprt :=
  mk_expr ID_typecast A_none ty None [op].

(** [typecast_exprt::conditional_cast] *)
Definition conditional_cast (e : exprt) (ty : typet) : exprt :=
  if typet_eqb (expr_type e) ty then e else typecast_exprt e ty.

(** [skip_typecast] of [expr_util.h]: strip outer typecasts. *)
Fixpoint skip_typecast (e : exprt) : exprt :=
  match e with
  | mk_expr ID_typecast _ _ _ [op] => skip_typecast op
  | _ => e
  end.

(** [exprt::find_source_location]: the node's own location if set,
    else the first one found in the operands, depth first. *)
Fixpoint find_source_location (e : exprt) : source_locationt :=
  match e with
  | mk_expr _ _ _ (Some l) _ => Some l
  | mk_expr _ _ _ None ops =>
      (fix first (l : list exprt) : source_locationt :=
         match l with
         | [] => None
         | op :: r =>
             match find_source_location op with
             | Some x => Some x
             | None => first r
             end
         end) ops
  end.

(** [has_subexpr(expr, id)]: the node or some node below it has [id]. *)
Fixpoint has_subexpr (e : exprt) (i : irep_id) : bool :=
  irep_id_eqb (expr_id e) i || existsb (fun op => has_subexpr op i) (operands e).

(** ** needs_cleaning *)

Definition is_quantifier (i : irep_id) : bool :=
  irep_id_eqb i ID_forall || irep_id_eqb i ID_exists.

Definition is_cleaning_kind (i : irep_id) : bool :=
  irep_id_eqb i ID_side_effect || irep_id_eqb i ID_compound_literal
  || irep_id_eqb i ID_comma.

Fixpoint needs_cleaning (e : exprt) : bool :=
  if is_cleaning_kind (expr_id e) then true
  else if is_quantifier (expr_id e) then false
  else existsb needs_cleaning (operands e).

(** ** rewrite_boolean

    [None] is a violated PRECONDITION or DATA_INVARIANT. *)
Definition rewrite_boolean (e : exprt) : option exprt :=
  if negb (irep_id_eqb (expr_id e) ID_and || irep_id_eqb (expr_id e) ID_or
           || irep_id_eqb (expr_id e) ID_implies) then None
  else if negb (is_boolean e) then None
  else if irep_id_eqb (expr_id e) ID_implies then
    (* re-write "a ==> b" into a?b:1 *)
    match operands e with
    | [lhs; rhs] => Some (if_exprt_typed lhs rhs true_exprt bool_typet)
    | _ => None
    end
  else
    let tmp := if irep_id_eqb (expr_id e) ID_and then true_exprt else false_exprt in
    (* start with last one *)
    fold_right
      (fun op acc =>
         match acc with
         | None => None
         | Some tmp =>
             if negb (is_boolean op) then None
             else if irep_id_eqb (expr_id e) ID_and then
               Some (if_exprt op tmp false_exprt)
             else Some (if_exprt op true_exprt tmp)
         end)
      (Some tmp) (operands e).

(** ** Goto programs and converter state *)

(** Goto-program instructions.  [IFTHENELSE c t f] is what
    [generate_ifthenelse] emits (see [generate_ifthenelse] below).
    Source locations of instructions are not modelled. *)
Inductive instructiont :=
| DECL (sym : exprt)
| DEAD (sym : exprt)
| ASSIGN (lhs rhs : exprt)
| EXPRESSION (e : exprt)                     (* OTHER: code_expressiont *)
| IFTHENELSE (cond : exprt) (t f : list instructiont)
| INSTR_other (n : nat) (args : list exprt).  (* emitted by collaborators *)

Definition goto_programt := list instructiont.

Inductive lifetimet := AUTOMATIC_LOCAL | STATIC_GLOBAL | DYNAMIC.

Definition lifetime_eqb (a b : lifetimet) : bool :=
  match a, b with
  | AUTOMATIC_LOCAL, AUTOMATIC_LOCAL | STATIC_GLOBAL, STATIC_GLOBAL
  | DYNAMIC, DYNAMIC => true
  | _, _ => false
  end.

Record symbolt := mk_symbol {
  sym_name : nat;
  sym_base_name : string;
  sym_type : typet;
  sym_location : source_locationt;
  is_static_lifetime : bool;
  sym_value : exprt
}.

(** [symbolt::symbol_expr]: a bare symbol reference, no location. *)
Definition symbol_expr (s : symbolt) : exprt :=
  mk_expr ID_symbol (A_identifier (sym_name s)) (sym_type s) None [].

Definition with_location (e : exprt) (l : source_locationt) : exprt :=
  match e with mk_expr i a t _ ops => mk_expr i a t l ops end.

(** The fields of [goto_convertt] the code reads or changes. *)
Record conv_state := mk_state {
  symbol_table : list symbolt;   (* newest first *)
  fresh_counter : nat;           (* next fresh auxiliary name *)
  scope_stack : list instructiont;  (* registered scope-exit code *)
  lifetime : lifetimet
}.

(** State-and-error monad: [None] is a fatal diagnostic. *)
Definition M (A : Type) := conv_state -> option (A * conv_state).

Definition ret {A} (a : A) : M A := fun s => Some (a, s).
Definition bind {A B} (m : M A) (k : A -> M B) : M B :=
  fun s => match m s with Some (a, s') => k a s' | None => None end.
Definition fatal {A} : M A := fun _ => None.
Definition get : M conv_state := fun s => Some (s, s).
Definition put (s : conv_state) : M unit := fun _ => Some (tt, s).

Notation "'let*' x ':=' m 'in' k" := (bind m (fun x => k))
  (at level 200, x name, m at level 100, k at level 200).
Notation "'let*' ' p ':=' m 'in' k" := (bind m (fun '(p) => k))
  (at level 200, p pattern, m at level 100, k at level 200).

(** ** Collaborators outside [goto_clean_expr.cpp] *)

(** Modelled from the spec: the symbol allocator
    ([get_fresh_aux_symbol]) registers a uniquely named symbol of the
    given type in the symbol table and returns it. *)
Definition get_fresh_aux_symbol (ty : typet) (base : string)
    (loc : source_locationt) : M symbolt :=
  fun s =>
    let sym := mk_symbol (fresh_counter s) base ty loc false nil_exprt in
    Some (sym, mk_state (sym :: symbol_table s) (S (fresh_counter s))
                        (scope_stack s) (lifetime s)).

(** Writing through the [symbolt &] the allocator returned. *)
Definition update_symbol (sym : symbolt) : M unit :=
  fun s =>
    Some (tt, mk_state
                (map (fun x => if Nat.eqb (sym_name x) (sym_name sym) then sym else x)
                     (symbol_table s))
                (fresh_counter s) (scope_stack s) (lifetime s)).

(** [targets.scope_stack.add(code, {})]: register scope-exit code. *)
Definition scope_stack_add (i : instructiont) : M unit :=
  fun s => Some (tt, mk_state (symbol_table s) (fresh_counter s)
                              (i :: scope_stack s) (lifetime s)).

(** Modelled from the spec: [new_tmp_symbol] allocates a fresh
    block-scoped temporary, emits its declaration into [dest] and
    registers its scope-exit ([DEAD]) marker. *)
Definition new_tmp_symbol (ty : typet) (suffix : string) (dest : goto_programt)
    (loc : source_locationt) : M (symbolt * goto_programt) :=
  let* sym := get_fresh_aux_symbol ty ("tmp_" ++ suffix)%string loc in
  let* _ := scope_stack_add (DEAD (symbol_expr sym)) in
  ret (sym, dest ++ [DECL (symbol_expr sym)]).

(** Modelled from the spec: statement-to-instruction [convert] splices
    an assignment or an expression-statement into a fragment. *)
Definition convert_code_assign (lhs rhs : exprt) (dest : goto_programt)
  : goto_programt := dest ++ [ASSIGN lhs rhs].
Definition convert_code_expression (e : exprt) (dest : goto_programt)
  : goto_programt := dest ++ [EXPRESSION e].

(** Modelled from the spec: the branch-and-join builder
    [generate_ifthenelse] appends one guarded construct that runs the
    true fragment when the condition holds and the false one otherwise,
    then joins (see [exec_instr]). *)
Definition generate_ifthenelse (cond : exprt) (t f : goto_programt)
    (loc : source_locationt) (dest : goto_programt) : goto_programt :=
  dest ++ [IFTHENELSE cond t f].

(** The instructions a fragment executes, given which guards hold. *)
Fixpoint exec_instr (holds : exprt -> bool) (i : instructiont) : list instructiont :=
  let exec_prog := fix go (p : list instructiont) : list instructiont :=
    match p with [] => [] | x :: r => exec_instr holds x ++ go r end in
  match i with
  | IFTHENELSE c t f => if holds c then exec_prog t else exec_prog f
  | _ => [i]
  end.

Fixpoint exec_prog (holds : exprt -> bool) (p : goto_programt) : list instructiont :=
  match p with [] => [] | x :: r => exec_instr holds x ++ exec_prog holds r end.

(** ** make_compound_literal *)
Definition make_compound_literal (expr : exprt) (dest : goto_programt)
  : M (exprt * goto_programt) :=
  let source_location := find_source_location expr in
  let* new_symbol := get_fresh_aux_symbol (expr_type expr) "literal" source_location in
  let* s := get in
  let new_symbol :=
    mk_symbol (sym_name new_symbol) (sym_base_name new_symbol) (sym_type new_symbol)
              (sym_location new_symbol)
              (negb (lifetime_eqb (lifetime s) AUTOMATIC_LOCAL)) expr in
  let* _ := update_symbol new_symbol in
  let result := with_location (symbol_expr new_symbol) source_location in
  (* The lifetime of compound literals is really that of
     the block they are in. *)
  let dest := if negb (is_static_lifetime new_symbol)
              then dest ++ [DECL result] else dest in
  let dest := convert_code_assign result expr dest in
  (* now create a 'dead' instruction *)
  let* _ := if negb (is_static_lifetime new_symbol)
            then scope_stack_add (DEAD result) else ret tt in
  ret (result, dest).

(** ** clean_expr

    The side-effect removers of [goto_convert_side_effect.cpp] and
    [convert_assign] are not part of this file: they are section
    variables, so every result below holds whatever they do.  The
    recursion is bounded by [fuel]; running out of fuel is [None]. *)
Section Clean.

Variable remove_side_effect :
  exprt -> goto_programt -> bool (* result_is_used *) -> bool (* address_taken *)
  -> M (exprt * goto_programt).
Variable remove_statement_expression :
  exprt -> goto_programt -> bool -> M (exprt * goto_programt).
Variable remove_function_call :
  exprt -> goto_programt -> bool -> M (exprt * goto_programt).
Variable assignment_lhs_needs_temporary : exprt -> bool.
Variable convert_assign : exprt -> exprt -> goto_programt -> M goto_programt.

Fixpoint clean_expr (fuel : nat) (expr : exprt) (dest : goto_programt)
    (result_is_used : bool) {struct fuel} : M (exprt * goto_programt) :=
  match fuel with
  | O => fatal
  | S fuel =>
  let clean_operands :=
    fix go (ops : list exprt) (dest : goto_programt)
      : M (list exprt * goto_programt) :=
      match ops with
      | [] => ret ([], dest)
      | op :: r =>
          let* '(op, dest) := clean_expr fuel op dest true in
          let* '(r, dest) := go r dest in
          ret (op :: r, dest)
      end in
  let default_case (expr : exprt) (dest : goto_programt) :=
    (* TODO: evaluation order *)
    let* '(ops, dest) := clean_operands (operands expr) dest in
    let expr := set_operands expr ops in
    if irep_id_eqb (expr_id expr) ID_side_effect then
      remove_side_effect expr dest result_is_used false
    else if irep_id_eqb (expr_id expr) ID_compound_literal then
      (* This is simply replaced by the literal *)
      match ops with [op] => ret (op, dest) | _ => fatal end
    else ret (expr, dest) in
  if negb (needs_cleaning expr) then ret (expr, dest) else
  match expr_id expr with
  | ID_and | ID_or | ID_implies =>
      (* rewrite into ?: *)
      match rewrite_boolean expr with
      | Some expr => clean_expr fuel expr dest result_is_used
      | None => fatal
      end
  | ID_if =>
      match operands expr with
      | [cond; true_case; false_case] =>
          (* first clean condition *)
          let* '(cond, dest) := clean_expr fuel cond dest true in
          let expr := set_operands expr [cond; true_case; false_case] in
          (* possibly done now *)
          if negb (needs_cleaning true_case) && negb (needs_cleaning false_case)
          then ret (expr, dest) else
          if negb (is_boolean cond) then fatal else
          let source_location := find_source_location expr in
          let* '(true_case, tmp_true) := clean_expr fuel true_case [] result_is_used in
          let* '(false_case, tmp_false) := clean_expr fuel false_case [] result_is_used in
          if result_is_used then
            let* '(new_symbol, dest) :=
              new_tmp_symbol (expr_type expr) "if_expr" dest source_location in
            let tmp_true := convert_code_assign (symbol_expr new_symbol) true_case tmp_true in
            let tmp_false := convert_code_assign (symbol_expr new_symbol) false_case tmp_false in
            ret (symbol_expr new_symbol,
                 generate_ifthenelse cond tmp_true tmp_false source_location dest)
          else
            (* preserve the expressions for possible later checks *)
            let tmp_true :=
              if negb (is_nil true_case)
              then convert_code_expression (typecast_exprt true_case empty_typet) tmp_true
              else tmp_true in
            let tmp_false :=
              if negb (is_nil false_case)
              then convert_code_expression (typecast_exprt false_case empty_typet) tmp_false
              else tmp_false in
            ret (nil_exprt,
                 generate_ifthenelse cond tmp_true tmp_false source_location dest)
      | _ => fatal
      end
  | ID_comma =>
      if result_is_used then
        (fix loop (ops : list exprt) (dest : goto_programt) (result : exprt)
           : M (exprt * goto_programt) :=
           match ops with
           | [] => ret (result, dest)
           | [last] =>
               (* special treatment for last one *)
               clean_expr fuel last dest true
           | op :: rest =>
               let* '(op, dest) := clean_expr fuel op dest false in
               (* remember these for later checks *)
               let dest := if negb (is_nil op)
                           then convert_code_expression op dest else dest in
               loop rest dest result
           end) (operands expr) dest default_exprt
      else
        let* dest :=
          (fix loop (ops : list exprt) (dest : goto_programt) : M goto_programt :=
             match ops with
             | [] => ret dest
             | op :: rest =>
                 let* '(op, dest) := clean_expr fuel op dest false in
                 (* remember as expression statement for later checks *)
                 let dest := if negb (is_nil op)
                             then convert_code_expression op dest else dest in
                 loop rest dest
             end) (operands expr) dest in
        ret (nil_exprt, dest)
  | ID_typecast =>
      match operands expr with
      | [op] =>
          (* preserve 'result_is_used' *)
          let* '(op, dest) := clean_expr fuel op dest result_is_used in
          if is_nil op then ret (nil_exprt, dest)
          else ret (set_operands expr [op], dest)
      | _ => fatal
      end
  | ID_side_effect =>
      if statement_is expr ID_gcc_conditional_expression then
        (* need to do separately *)
        remove_gcc_conditional_expression fuel expr dest
      else if statement_is expr ID_statement_expression then
        remove_statement_expression expr dest result_is_used
      else if statement_is expr ID_assign then
        match operands expr with
        | [lhs; rhs] =>
            if irep_id_eqb (expr_id rhs) ID_side_effect
               && statement_is rhs ID_function_call then
              let* '(lhs, dest) := clean_expr fuel lhs dest true in
              let must_use_rhs := assignment_lhs_needs_temporary lhs in
              let* '(rhs, dest) :=
                if must_use_rhs then remove_function_call rhs dest true
                else ret (rhs, dest) in
              (* turn into code *)
              let new_lhs := skip_typecast lhs in
              let new_rhs := conditional_cast rhs (expr_type new_lhs) in
              let* dest := convert_assign new_lhs new_rhs dest in
              if result_is_used
              then ret (if must_use_rhs then new_rhs else lhs, dest)
              else ret (nil_exprt, dest)
            else default_case expr dest
        | _ => fatal
        end
      else default_case expr dest
  | ID_forall | ID_exists =>
      if has_subexpr expr ID_side_effect then fatal
      else default_case expr dest
  | ID_address_of =>
      match operands expr with
      | [obj] =>
          let* '(obj, dest) := clean_expr_address_of fuel obj dest in
          ret (set_operands expr [obj], dest)
      | _ => fatal
      end
  | _ => default_case expr dest
  end
  end

with clean_expr_address_of (fuel : nat) (expr : exprt) (dest : goto_programt)
    {struct fuel} : M (exprt * goto_programt) :=
  match fuel with
  | O => fatal
  | S fuel =>
  match expr_id expr with
  | ID_compound_literal =>
      match operands expr with
      | [op] =>
          let* '(op, dest) := clean_expr fuel op dest true in
          make_compound_literal op dest
      | _ => fatal
      end
  | ID_string_constant => ret (expr, dest)
  | ID_index =>
      match operands expr with
      | [array; index] =>
          let* '(array, dest) := clean_expr_address_of fuel array dest in
          let* '(index, dest) := clean_expr fuel index dest true in
          ret (set_operands expr [array; index], dest)
      | _ => fatal
      end
  | ID_dereference =>
      match operands expr with
      | [pointer] =>
          let* '(pointer, dest) := clean_expr fuel pointer dest true in
          ret (set_operands expr [pointer], dest)
      | _ => fatal
      end
  | ID_comma =>
      let* '(result, dest) :=
        (fix loop (ops : list exprt) (dest : goto_programt) (result : exprt)
           : M (exprt * goto_programt) :=
           match ops with
           | [] => ret (result, dest)
           | [last] => ret (last, dest)
           | op :: rest =>
               let* '(op, dest) := clean_expr fuel op dest false in
               (* get any side-effects *)
               let dest := if negb (is_nil op)
                           then convert_code_expression op dest else dest in
               loop rest dest result
           end) (operands expr) dest default_exprt in
      (* do again *)
      clean_expr_address_of fuel result dest
  | ID_side_effect => remove_side_effect expr dest true true
  | _ =>
      let* '(ops, dest) :=
        (fix go (ops : list exprt) (dest : goto_programt)
           : M (list exprt * goto_programt) :=
           match ops with
           | [] => ret ([], dest)
           | op :: r =>
               let* '(op, dest) := clean_expr_address_of fuel op dest in
               let* '(r, dest) := go r dest in
               ret (op :: r, dest)
           end) (operands expr) dest in
      ret (set_operands expr ops, dest)
  end
  end

with remove_gcc_conditional_expression (fuel : nat) (expr : exprt)
    (dest : goto_programt) {struct fuel} : M (exprt * goto_programt) :=
  match fuel with
  | O => fatal
  | S fuel =>
  match operands expr with
  | [op0; op1] =>
      (* first remove side-effects from condition *)
      let* '(op0, dest) := clean_expr fuel op0 dest true in
      (* now we can copy op0 safely *)
      let if_expr :=
        with_location
          (if_exprt_typed (conditional_cast op0 bool_typet) op0 op1 (expr_type expr))
          (expr_loc expr) in
      (* there might still be junk in expr.op2() *)
      clean_expr fuel if_expr dest true
  | _ => fatal
  end
  end.

End Clean.


(** ** Reading of the spec, for comparison with the code *)

(** Nodes reachable from [e] without passing through a quantifier
    (the node itself is always reached). *)
Inductive reach_nq : exprt -> exprt -> Prop :=
| reach_self e : reach_nq e e
| reach_op e op e' :
    is_quantifier (expr_id e) = false -> In op (operands e) ->
    reach_nq op e' -> reach_nq e e'.

(** The spec's right-nested chains: [a1 ? (a2 ? (... : false) : false) : false]
    and its dual for or. *)
Fixpoint and_chain_spec (ops : list exprt) : exprt :=
  match ops with
  | [] => true_exprt
  | a :: r => if_exprt_typed a (and_chain_spec r) false_exprt bool_typet
  end.

Fixpoint or_chain_spec (ops : list exprt) : exprt :=
  match ops with
  | [] => false_exprt
  | a :: r => if_exprt_typed a true_exprt (or_chain_spec r) bool_typet
  end.

Definition is_boolean_operator (i : irep_id) : bool :=
  irep_id_eqb i ID_and || irep_id_eqb i ID_or || irep_id_eqb i ID_implies.

(** Structural induction on expressions through their operand lists. *)
Section ExprInd.
Variable P : exprt -> Prop.
Hypothesis IH : forall i a t l ops, Forall P ops -> P (mk_expr i a t l ops).
Fixpoint exprt_ind' (e : exprt) : P e :=
  match e with
  | mk_expr i a t l ops =>
      IH i a t l ops
        ((fix go (l : list exprt) : Forall P l :=
            match l with
            | [] => Forall_nil P
            | x :: r => Forall_cons x (exprt_ind' x) (go r)
            end) ops)
  end.
End ExprInd.

(** ** Sample collaborators and inputs, for concrete runs *)

(** A generic side-effect remover: records the node as one
    instruction and returns a placeholder symbol when the value is used. *)
Definition sample_remove_side_effect (e : exprt) (dest : goto_programt)
    (used _addr : bool) : M (exprt * goto_programt) :=
  ret (if used then mk_expr ID_symbol (A_identifier 1000) (expr_type e) None []
       else nil_exprt, dest ++ [INSTR_other 0 [e]]).
Definition sample_remove_statement_expression (e : exprt) (dest : goto_programt)
    (used : bool) : M (exprt * goto_programt) :=
  ret (if used then e else nil_exprt, dest ++ [INSTR_other 1 [e]]).
Definition sample_remove_function_call (e : exprt) (dest : goto_programt)
    (used : bool) : M (exprt * goto_programt) :=
  ret (e, dest ++ [INSTR_other 2 [e]]).
Definition sample_convert_assign (lhs rhs : exprt) (dest : goto_programt)
  : M goto_programt := ret (dest ++ [ASSIGN lhs rhs]).

Definition sample_clean_expr :=
  clean_expr sample_remove_side_effect sample_remove_statement_expression
    sample_remove_function_call (fun _ => false) sample_convert_assign.

Definition init_state : conv_state := mk_state [] 0 [] AUTOMATIC_LOCAL.

Definition sym_bool (n : nat) : exprt :=
  mk_expr ID_symbol (A_identifier n) bool_typet None [].
Definition sym_int (n : nat) : exprt :=
  mk_expr ID_symbol (A_identifier n) (typet_other 0) None [].
Definition comma_int (ops : list exprt) : exprt :=
  mk_expr ID_comma A_none (typet_other 0) None ops.

(** [f()] as a side-effect node, of Boolean and of integer type. *)
Definition call_bool : exprt :=
  mk_expr ID_side_effect (A_statement ID_function_call) bool_typet None [].
Definition call_int : exprt :=
  mk_expr ID_side_effect (A_statement ID_function_call) (typet_other 0) None [].
Definition call_result (ty : typet) : exprt :=
  mk_expr ID_symbol (A_identifier 1000) ty None [].

(** [forall i. (i, 1)]: a quantifier whose body holds a comma. *)
Definition forall_sample : exprt :=
  mk_expr ID_forall A_none bool_typet None
    [sym_int 7; comma_int [sym_int 7; sym_int 1]].

(** [c ? t : f] over integers. *)
Definition if_int (c t f : exprt) : exprt :=
  mk_expr ID_if A_none (typet_other 0) None [c; t; f].


(** ** Binary irep serialization *)

(** An input stream: the bytes not read yet and [good()]. *)
Record istream := mk_istream { in_rest : list Z; in_good : bool }.

Definition EOF : Z := (-1)%Z.

(** [in.get()]: the next byte; at the end of the data [EOF], and the
    stream is no longer good (eofbit and failbit). *)
Definition istream_get (i : istream) : Z * istream :=
  if in_good i then
    match in_rest i with
    | [] => (EOF, mk_istream [] false)
    | b :: r => (b, mk_istream r true)
    end
  else (EOF, i).

(** [in.peek()]: the next byte, not consumed; at the end of the data
    [EOF], and the stream is no longer good (eofbit). *)
Definition istream_peek (i : istream) : Z * istream :=
  if in_good i then
    match in_rest i with
    | [] => (EOF, mk_istream [] false)
    | b :: _ => (b, i)
    end
  else (EOF, i).

(** Outcome of a reading function: a value, a thrown
    [deserialization_exceptiont], or no result within the fuel that
    bounds the input-driven loops. *)
Inductive deser_result (A : Type) :=
| Ok (a : A)
| Throw (msg : string)
| OutOfFuel.
Arguments Ok {A} a.
Arguments Throw {A} msg.
Arguments OutOfFuel {A}.

(** [size_t] is 64 bits wide ([sizeof(res) * CHAR_BIT]). *)
Definition size_t_bits : Z := 64.
Definition size_t_mask : Z := (2 ^ size_t_bits - 1)%Z.

(** [write_gb_word]: 7 bits at a time, least significant first, bit 7
    set on every byte but the last.  A 64-bit word takes at most ten
    rounds, hence the fuel [10]. *)
Fixpoint write_gb_word_loop (fuel : nat) (u : Z) : list Z :=
  match fuel with
  | O => []
  | S fuel =>
      let value := Z.land u 127 in
      let u := Z.shiftr u 7 in
      if (u =? 0)%Z then [value]
      else Z.lor value 128 :: write_gb_word_loop fuel u
  end.

Definition write_gb_word (u : Z) : list Z := write_gb_word_loop 10 u.

(** The loop of [read_gb_word]; [Ok] is leaving the loop (by [break] or
    because the stream is no longer good).  The shift reaches 64 after
    ten rounds and the eleventh throws, hence the fuel [11]. *)
Fixpoint read_gb_word_loop (fuel : nat) (res shift : Z) (i : istream)
  : deser_result (Z * istream) :=
  match fuel with
  | O => Throw "input number too large"
  | S fuel =>
      if in_good i then
        if (size_t_bits <=? shift)%Z then Throw "input number too large" else
        let '(c, i) := istream_get i in
        let ch := Z.land c 255 in                 (* static_cast<unsigned char> *)
        let res := Z.lor res (Z.land (Z.shiftl (Z.land ch 127) shift) size_t_mask) in
        let shift := (shift + 7)%Z in
        if (Z.land ch 128 =? 0)%Z then Ok (res, i)
        else read_gb_word_loop fuel res shift i
      else Ok (res, i)
  end.

Definition read_gb_word (i : istream) : deser_result (Z * istream) :=
  match read_gb_word_loop 11 0 0 i with
  | Ok (res, i) =>
      if in_good i then Ok (res, i) else Throw "unexpected end of input stream"
  | Throw m => Throw m
  | OutOfFuel => OutOfFuel
  end.

(** [write_gb_string]: a 0 byte or a backslash is escaped by a
    backslash; a 0 byte ends the string. *)
Definition write_gb_string (s : list Z) : list Z :=
  flat_map (fun c => if (c =? 0)%Z || (c =? 92)%Z then [92%Z; c] else [c]) s ++ [0%Z].

(** The loop of [read_gb_string]: it ends only on a 0 character; a
    backslash takes the next character as it is.  [read_buffer] is the
    list of characters read so far (its doubling is capacity only).
    [None]: the loop did not end within the fuel. *)
Fixpoint read_gb_string_loop (fuel : nat) (buf : list Z) (i : istream)
  : option (list Z * istream) :=
  match fuel with
  | O => None
  | S fuel =>
      let '(c, i) := istream_get i in
      let c := Z.land c 255 in                    (* static_cast<char> *)
      if (c =? 0)%Z then Some (buf, i)
      else if (c =? 92)%Z then
        let '(c', i) := istream_get i in
        read_gb_string_loop fuel (buf ++ [Z.land c' 255]) i
      else read_gb_string_loop fuel (buf ++ [c]) i
  end.

Definition read_gb_string (fuel : nat) (i : istream) : option (list Z * istream) :=
  read_gb_string_loop fuel [] i.

(** [std::vector::resize(n, d)] and [v[n] = x] (within bounds). *)
Definition resize {A} (l : list A) (n : nat) (d : A) : list A :=
  firstn n l ++ repeat d (n - List.length l).

Fixpoint set_nth {A} (l : list A) (n : nat) (x : A) : list A :=
  match l, n with
  | [], _ => []
  | _ :: r, O => x :: r
  | y :: r, S n => y :: set_nth r n x
  end.

(** [irept]: an id, the ordered [sub] list and the [named_sub] map.
    Strings ([irep_idt]) are byte lists. *)
Inductive irept :=
| mk_irept (ir_id : list Z) (ir_sub : list irept)
           (ir_named_sub : list (list Z * irept)).

Definition ir_id (x : irept) : list Z := match x with mk_irept i _ _ => i end.
Definition ir_sub (x : irept) : list irept := match x with mk_irept _ s _ => s end.
Definition ir_named_sub (x : irept) : list (list Z * irept) :=
  match x with mk_irept _ _ n => n end.

(** ["nil"] *)
Definition nil_irep : irept := mk_irept [110; 105; 108]%Z [] [].

(** [ireps_containert]: the tables of one serializer. *)
Record ireps_container := mk_container {
  ireps_on_read : list (bool * irept);
  ireps_on_write : list (nat * nat);   (* full-hash number |-> index *)
  string_map : list bool;
  string_rev_map : list (bool * list Z)
}.

Definition set_ireps_on_read (c : ireps_container) x :=
  mk_container x (ireps_on_write c) (string_map c) (string_rev_map c).
Definition set_ireps_on_write (c : ireps_container) x :=
  mk_container (ireps_on_read c) x (string_map c) (string_rev_map c).
Definition set_string_map (c : ireps_container) x :=
  mk_container (ireps_on_read c) (ireps_on_write c) x (string_rev_map c).
Definition set_string_rev_map (c : ireps_container) x :=
  mk_container (ireps_on_read c) (ireps_on_write c) (string_map c) x.

Definition empty_container : ireps_container := mk_container [] [] [] [].

Fixpoint assoc_nat {A} (k : nat) (l : list (nat * A)) : option A :=
  match l with
  | [] => None
  | (k', v) :: r => if Nat.eqb k k' then Some v else assoc_nat k r
  end.

Section Serialization.

(** [irep_idt]'s number in the string container ([get_no()]), and
    [irep_full_hash_container.number], which numbers ireps by full
    structural equality. *)
Variable string_no : list Z -> nat.
Variable irep_number : irept -> nat.

(** [named_subt] is a map ordered by [irep_idt]'s [operator<], which
    compares the numbers; [emplace] leaves an existing key alone. *)
Fixpoint named_sub_emplace (k : list Z) (v : irept) (l : list (list Z * irept))
  : list (list Z * irept) :=
  match l with
  | [] => [(k, v)]
  | (k', v') :: r =>
      if Nat.ltb (string_no k) (string_no k') then (k, v) :: l
      else if Nat.eqb (string_no k) (string_no k') then l
      else (k', v') :: named_sub_emplace k v r
  end.

Definition write_string_ref (c : ireps_container) (s : list Z)
  : list Z * ireps_container :=
  let id := string_no s in
  let sm := string_map c in
  let sm := if Nat.leb (List.length sm) id then resize sm (id + 1) false else sm in
  if nth id sm false then (write_gb_word (Z.of_nat id), set_string_map c sm)
  else (write_gb_word (Z.of_nat id) ++ write_gb_string s,
        set_string_map c (set_nth sm id true)).

Definition read_string_ref (fuel : nat) (c : ireps_container) (i : istream)
  : deser_result (list Z * ireps_container * istream) :=
  match read_gb_word i with
  | Ok (id, i) =>
      let id := Z.to_nat id in
      let rm := string_rev_map c in
      let rm := if Nat.leb (List.length rm) id then resize rm (1 + id * 2) (false, []) else rm in
      if fst (nth id rm (false, [])) then
        Ok (snd (nth id rm (false, [])), set_string_rev_map c rm, i)
      else
        match read_gb_string fuel i with
        | Some (s, i) => Ok (s, set_string_rev_map c (set_nth rm id (true, s)), i)
        | None => OutOfFuel
        end
  | Throw m => Throw m
  | OutOfFuel => OutOfFuel
  end.

(** [reference_convert(irep, out)], given the [write_irep] to call. *)
Definition reference_convert_with
    (write_irep : ireps_container -> irept -> list Z * ireps_container)
    (c : ireps_container) (irep : irept) : list Z * ireps_container :=
  let h := irep_number irep in
  match assoc_nat h (ireps_on_write c) with
  | Some idx => (write_gb_word (Z.of_nat idx), c)
  | None =>
      let idx := List.length (ireps_on_write c) in
      let c := set_ireps_on_write c (ireps_on_write c ++ [(h, idx)]) in
      let '(o, c) := write_irep c irep in
      (write_gb_word (Z.of_nat idx) ++ o, c)
  end.

(** The two loops of [write_irep]: each sub as ['S'] and its
    reference, each named sub as ['N'], the name's string reference and
    the sub's reference. *)
Fixpoint write_subs (ref : ireps_container -> irept -> list Z * ireps_container)
    (l : list irept) (c : ireps_container) : list Z * ireps_container :=
  match l with
  | [] => ([], c)
  | x :: r =>
      let '(o, c) := ref c x in
      let '(o', c) := write_subs ref r c in
      ((83%Z :: o) ++ o', c)                                 (* 'S' *)
  end.

Fixpoint write_named_subs (ref : ireps_container -> irept -> list Z * ireps_container)
    (l : list (list Z * irept)) (c : ireps_container) : list Z * ireps_container :=
  match l with
  | [] => ([], c)
  | (k, x) :: r =>
      let '(ok, c) := write_string_ref c k in
      let '(o, c) := ref c x in
      let '(o', c) := write_named_subs ref r c in
      ((78%Z :: ok ++ o) ++ o', c)                           (* 'N' *)
  end.

Fixpoint write_irep (c : ireps_container) (irep : irept) {struct irep}
  : list Z * ireps_container :=
  match irep with
  | mk_irept id sub named_sub =>
      let '(o_id, c) := write_string_ref c id in
      let '(o_sub, c) := write_subs (reference_convert_with write_irep) sub c in
      let '(o_named, c) := write_named_subs (reference_convert_with write_irep) named_sub c in
      (o_id ++ o_sub ++ o_named ++ [0%Z], c)                 (* terminator *)
  end.

Definition reference_convert_out (c : ireps_container) (irep : irept)
  : list Z * ireps_container :=
  reference_convert_with write_irep c irep.

(** [reference_convert(in)] and [read_irep], with the three loops of
    [read_irep] as [read_sub_loop] (['S']) and [read_named_loop] (['N'],
    then ['C']).  Every call and every round of a loop takes one unit of
    fuel; [OutOfFuel] is running out of it. *)
Fixpoint reference_convert_in (fuel : nat) (c : ireps_container) (i : istream)
  {struct fuel} : deser_result (irept * ireps_container * istream) :=
  match fuel with
  | O => OutOfFuel
  | S fuel =>
  match read_gb_word i with
  | Throw m => Throw m
  | OutOfFuel => OutOfFuel
  | Ok (id, i) =>
      let id := Z.to_nat id in
      if Nat.leb (List.length (ireps_on_read c)) id
         || negb (fst (nth id (ireps_on_read c) (false, nil_irep))) then
        match read_irep fuel c i with
        | Throw m => Throw m
        | OutOfFuel => OutOfFuel
        | Ok (irep, c, i) =>
            let c :=
              if Nat.leb (List.length (ireps_on_read c)) id
              then set_ireps_on_read c
                     (resize (ireps_on_read c) (1 + id * 2) (false, nil_irep))
              else c in
            (* guard against self-referencing ireps *)
            if fst (nth id (ireps_on_read c) (false, nil_irep))
            then Throw "irep id read twice."
            else Ok (irep,
                     set_ireps_on_read c (set_nth (ireps_on_read c) id (true, irep)), i)
        end
      else Ok (snd (nth id (ireps_on_read c) (false, nil_irep)), c, i)
  end
  end

with read_irep (fuel : nat) (c : ireps_container) (i : istream) {struct fuel}
  : deser_result (irept * ireps_container * istream) :=
  match fuel with
  | O => OutOfFuel
  | S fuel =>
  match read_string_ref fuel c i with
  | Throw m => Throw m
  | OutOfFuel => OutOfFuel
  | Ok (id, c, i) =>
      match read_sub_loop fuel [] c i with
      | Throw m => Throw m
      | OutOfFuel => OutOfFuel
      | Ok (sub, c, i) =>
          match read_named_loop 78%Z fuel [] c i with        (* 'N' *)
          | Throw m => Throw m
          | OutOfFuel => OutOfFuel
          | Ok (named, c, i) =>
              match read_named_loop 67%Z fuel named c i with (* 'C' *)
              | Throw m => Throw m
              | OutOfFuel => OutOfFuel
              | Ok (named, c, i) =>
                  let '(t, i) := istream_get i in
                  if negb (t =? 0)%Z then Throw "irep not terminated"
                  else Ok (mk_irept id sub named, c, i)
              end
          end
      end
  end
  end

with read_sub_loop (fuel : nat) (sub : list irept) (c : ireps_container)
    (i : istream) {struct fuel}
  : deser_result (list irept * ireps_container * istream) :=
  match fuel with
  | O => OutOfFuel
  | S fuel =>
      let '(ch, i) := istream_peek i in
      if (ch =? 83)%Z then                                   (* 'S' *)
        let '(_, i) := istream_get i in
        match reference_convert_in fuel c i with
        | Throw m => Throw m
        | OutOfFuel => OutOfFuel
        | Ok (x, c, i) => read_sub_loop fuel (sub ++ [x]) c i
        end
      else Ok (sub, c, i)
  end

with read_named_loop (tag : Z) (fuel : nat) (named : list (list Z * irept))
    (c : ireps_container) (i : istream) {struct fuel}
  : deser_result (list (list Z * irept) * ireps_container * istream) :=
  match fuel with
  | O => OutOfFuel
  | S fuel =>
      let '(ch, i) := istream_peek i in
      if (ch =? tag)%Z then
        let '(_, i) := istream_get i in
        match read_string_ref fuel c i with
        | Throw m => Throw m
        | OutOfFuel => OutOfFuel
        | Ok (k, c, i) =>
            match reference_convert_in fuel c i with
            | Throw m => Throw m
            | OutOfFuel => OutOfFuel
            | Ok (x, c, i) => read_named_loop tag fuel (named_sub_emplace k x named) c i
            end
        end
      else Ok (named, c, i)
  end.

End Serialization.

Definition byte_check (p : Z -> bool) : bool :=
  forallb p (map Z.of_nat (seq 0 256)).

Definition is_cont_byte (b : Z) : Prop := (128 <= b < 256)%Z.

Definition is_byte (b : Z) : Prop := (0 <= b < 256)%Z.

Section StringRefSequences.
Variable string_no : list Z -> nat.

Fixpoint write_string_refs (c : ireps_container) (ss : list (list Z))
  : list Z * ireps_container :=
  match ss with
  | [] => ([], c)
  | s :: r =>
      let '(o, c) := write_string_ref string_no c s in
      let '(o', c) := write_string_refs c r in
      (o ++ o', c)
  end.

Fixpoint read_string_refs (fuel n : nat) (c : ireps_container) (i : istream)
  : deser_result (list (list Z) * ireps_container * istream) :=
  match n with
  | O => Ok ([], c, i)
  | S n =>
      match read_string_ref fuel c i with
      | Ok (s, c, i) =>
          match read_string_refs fuel n c i with
          | Ok (r, c, i) => Ok (s :: r, c, i)
          | Throw m => Throw m
          | OutOfFuel => OutOfFuel
          end
      | Throw m => Throw m
      | OutOfFuel => OutOfFuel
      end
  end.

(** The writer's [string_map] and the reader's [string_rev_map] agree:
    the same ids are marked, and a marked id maps to a string of that
    number satisfying [Q]. *)
Definition str_tables_agree (Q : list Z -> Prop) (sm : list bool)
    (rm : list (bool * list Z)) : Prop :=
  forall id, nth id sm false = fst (nth id rm (false, []))
    /\ (fst (nth id rm (false, [])) = true ->
        string_no (snd (nth id rm (false, []))) = id
        /\ Q (snd (nth id rm (false, [])))).

End StringRefSequences.


Section irept_ind'.
Variable P : irept -> Prop.
Hypothesis Hmk : forall id sub named,
  Forall P sub -> Forall (fun kv => P (snd kv)) named -> P (mk_irept id sub named).
Fixpoint irept_ind' (x : irept) : P x :=
  match x with
  | mk_irept id sub named =>
      Hmk id sub named
        ((fix go (l : list irept) : Forall P l :=
            match l with
            | [] => Forall_nil _
            | y :: r => Forall_cons _ (irept_ind' y) (go r)
            end) sub)
        ((fix go (l : list (list Z * irept)) : Forall (fun kv => P (snd kv)) l :=
            match l with
            | [] => Forall_nil _
            | (k, y) :: r => Forall_cons (A := list Z * irept) (k, y) (irept_ind' y) (go r)
            end) named)
  end.
End irept_ind'.

Fixpoint irep_subs (x : irept) : list irept :=
  x :: match x with
       | mk_irept _ sub named =>
           flat_map irep_subs sub ++ flat_map (fun '(_, y) => irep_subs y) named
       end.

Fixpoint irep_strings (x : irept) : list (list Z) :=
  match x with
  | mk_irept id sub named =>
      id :: flat_map irep_strings sub
         ++ flat_map (fun '(k, y) => k :: irep_strings y) named
  end.

Fixpoint irep_size (x : irept) : nat :=
  match x with
  | mk_irept _ sub named =>
      1 + list_sum (map irep_size sub) + list_sum (map (fun '(_, y) => irep_size y) named)
  end.

Fixpoint irep_fuel (x : irept) : nat :=
  match x with
  | mk_irept id sub named =>
      3 + List.length id + list_sum (map (fun y => 1 + irep_fuel y) sub)
        + list_sum (map (fun '(k, y) => 2 + List.length k + irep_fuel y) named)
  end.

Definition keys_increasing (string_no : list Z -> nat)
    (l : list (list Z * irept)) : bool :=
  (fix go l := match l with
   | [] => true
   | (k, _) :: r =>
       forallb (fun '(k', _) => Nat.ltb (string_no k) (string_no k')) r && go r
   end) l.

Fixpoint irep_wf (string_no : list Z -> nat) (x : irept) : bool :=
  match x with
  | mk_irept _ sub named =>
      keys_increasing string_no named && forallb (irep_wf string_no) sub
      && forallb (fun '(_, y) => irep_wf string_no y) named
  end.

Definition irep_tables_agree (irep_number : irept -> nat) (root : irept)
    (ow : list (nat * nat)) (orr : list (bool * irept)) (anc : list (nat * irept)) : Prop :=
  (forall j, j < List.length ow -> snd (nth j ow (0, 0)) = j)
  /\ NoDup (map fst ow)
  /\ (forall e, In e ow -> exists y, In y (irep_subs root) /\ fst e = irep_number y)
  /\ (forall j, j < List.length ow ->
        (exists a, In (j, a) anc)
        \/ (exists y, nth j orr (false, nil_irep) = (true, y)
              /\ In y (irep_subs root) /\ irep_number y = fst (nth j ow (0, 0))))
  /\ (forall j, List.length ow <= j -> fst (nth j orr (false, nil_irep)) = false)
  /\ (forall j a, In (j, a) anc ->
        j < List.length ow /\ fst (nth j ow (0, 0)) = irep_number a
        /\ fst (nth j orr (false, nil_irep)) = false /\ In a (irep_subs root)).


Section RoundTripInvariant.
Variable sn : list Z -> nat.
Variable inum : irept -> nat.
Variable root : irept.

Definition irep_ref_ok (y : irept) : Prop :=
  forall cw cr anc fuel rest o cw',
  In y (irep_subs root) -> irep_tables_agree inum root (ireps_on_write cw) (ireps_on_read cr) anc ->
  str_tables_agree sn (fun s => In s (irep_strings root)) (string_map cw) (string_rev_map cr) ->
  (forall j a, In (j, a) anc -> irep_size y < irep_size a) ->
  irep_fuel y <= fuel ->
  reference_convert_with inum (write_irep sn inum) cw y = (o, cw') ->
  exists cr', reference_convert_in sn fuel cr (mk_istream (o ++ rest) true)
                = Ok (y, cr', mk_istream rest true)
    /\ irep_tables_agree inum root (ireps_on_write cw') (ireps_on_read cr') anc
    /\ str_tables_agree sn (fun s => In s (irep_strings root)) (string_map cw') (string_rev_map cr')
    /\ exists suf, ireps_on_write cw' = ireps_on_write cw ++ suf.

Definition irep_body_ok (x : irept) : Prop :=
  forall cw cr anc fuel rest o cw',
  In x (irep_subs root) -> irep_tables_agree inum root (ireps_on_write cw) (ireps_on_read cr) anc ->
  str_tables_agree sn (fun s => In s (irep_strings root)) (string_map cw) (string_rev_map cr) ->
  (forall j a, In (j, a) anc -> irep_size x <= irep_size a) ->
  irep_fuel x <= S fuel ->
  write_irep sn inum cw x = (o, cw') ->
  exists cr', read_irep sn fuel cr (mk_istream (o ++ rest) true)
                = Ok (x, cr', mk_istream rest true)
    /\ irep_tables_agree inum root (ireps_on_write cw') (ireps_on_read cr') anc
    /\ str_tables_agree sn (fun s => In s (irep_strings root)) (string_map cw') (string_rev_map cr')
    /\ exists suf, ireps_on_write cw' = ireps_on_write cw ++ suf.

End RoundTripInvariant.

(** ** Sample numbering and irep, for concrete serialization runs *)

(** A string number: the first byte of the string. *)
Definition sample_string_no (s : list Z) : nat :=
  match s with [] => 0 | b :: _ => Z.to_nat b end.

(** An irep number: the number of the irep's id. *)
Definition sample_irep_number (x : irept) : nat := sample_string_no (ir_id x).

(** An irep with a shared sub-irep and one named sub-irep. *)
Definition sample_irep : irept :=
  mk_irept [3%Z] [mk_irept [4%Z] [] []; mk_irept [4%Z] [] []]
    [([5%Z], mk_irept [6%Z] [] [])].

(** ** Basic facts *)

Lemma irep_id_eqb_eq a b : irep_id_eqb a b = true <-> a = b.
Proof.
  split.
  - destruct a, b; simpl; try discriminate; auto.
    intro H; apply Nat.eqb_eq in H; subst; reflexivity.
  - intros ->; destruct b; simpl; auto. apply Nat.eqb_refl.
Qed.

Lemma needs_cleaning_eq e :
  needs_cleaning e =
  if is_cleaning_kind (expr_id e) then true
  else if is_quantifier (expr_id e) then false
  else existsb needs_cleaning (operands e).
Proof. destruct e; reflexivity. Qed.

Lemma exec_prog_app holds p q :
  exec_prog holds (p ++ q) = exec_prog holds p ++ exec_prog holds q.
Proof.
  induction p as [|x p IH]; simpl; [reflexivity|].
  rewrite IH, app_assoc; reflexivity.
Qed.

Lemma exec_instr_ite holds c t f :
  exec_instr holds (IFTHENELSE c t f) =
  if holds c then exec_prog holds t else exec_prog holds f.
Proof.
  simpl. destruct (holds c);
  [induction t as [|x t IH] | induction f as [|x f IH]]; simpl; try reflexivity;
  rewrite IH; reflexivity.
Qed.

Lemma and_chain_spec_type ops : expr_type (and_chain_spec ops) = bool_typet.
Proof. destruct ops; reflexivity. Qed.

Lemma or_chain_spec_type ops : expr_type (or_chain_spec ops) = bool_typet.
Proof. destruct ops; reflexivity. Qed.

(** What [rewrite_boolean] builds is a conditional, or the identity
    constant when there are no operands. *)
Lemma rewrite_boolean_result_id e r :
  rewrite_boolean e = Some r ->
  expr_id r = ID_if \/ (operands e = [] /\ expr_id r = ID_constant).
Proof.
  unfold rewrite_boolean.
  destruct (negb _); [discriminate|].
  destruct (negb (is_boolean e)); [discriminate|].
  destruct (irep_id_eqb (expr_id e) ID_implies).
  - destruct (operands e) as [|x [|y [|z w]]]; try discriminate.
    intro H; injection H as <-; left; reflexivity.
  - destruct (operands e) as [|op ops].
    + simpl; intro H; injection H as <-; right; split; [reflexivity|].
      destruct (irep_id_eqb _ ID_and); reflexivity.
    + simpl. destruct (fold_right _ _ ops) as [tmp|]; [|discriminate].
      destruct (negb (is_boolean op)); [discriminate|].
      destruct (irep_id_eqb _ ID_and); intro H; injection H as <-; left; reflexivity.
Qed.

Lemma exprt_not_own_operand x : forall i a t l rest,
  x <> mk_expr i a t l (x :: rest).
Proof.
  induction x as [i0 a0 t0 l0 ops0 IH] using exprt_ind'.
  intros i a t l rest H. injection H as -> -> -> -> Hops.
  rewrite Hops in IH. inversion IH as [|? ? Hhead]; subst.
  apply (Hhead i a t l rest). rewrite <- Hops. reflexivity.
Qed.

(** ** Claims about needs_cleaning and rewrite_boolean *)

(** C3: [needs_cleaning e] holds exactly when [e] itself or a node
    reachable from it without passing through a forall/exists node is a
    side effect, a compound literal or a comma; a quantifier node is
    never reported (the function is pure: it only returns a bool). *)
Theorem needs_cleaning_reachable (e : exprt) :
  (needs_cleaning e = true <->
   exists e', reach_nq e e' /\ is_cleaning_kind (expr_id e') = true)
  /\ is_quantifier (expr_id e) && needs_cleaning e = false.
Proof.
  split; [split|].
  - induction e as [i a t l ops IH] using exprt_ind'.
    rewrite needs_cleaning_eq; simpl.
    destruct (is_cleaning_kind i) eqn:Hk.
    + intros _. exists (mk_expr i a t l ops); split; [constructor|exact Hk].
    + destruct (is_quantifier i) eqn:Hq; [discriminate|].
      intro Hex. apply existsb_exists in Hex as [op [Hin Hop]].
      rewrite Forall_forall in IH.
      destruct (IH op Hin Hop) as [e' [Hr He']].
      exists e'; split; [|exact He'].
      eapply reach_op; [exact Hq|exact Hin|exact Hr].
  - intros [e' [Hr Hk]].
    induction Hr as [e|e op e' Hq Hin Hr IHr].
    + rewrite needs_cleaning_eq, Hk; reflexivity.
    + rewrite needs_cleaning_eq, Hq.
      destruct (is_cleaning_kind (expr_id e)); [reflexivity|].
      apply existsb_exists; exists op; auto.
  - destruct e as [[] a t l ops]; reflexivity.
Qed.

(** C2: on a Boolean node, [rewrite_boolean] turns [a ==> b] into
    [a ? b : true], an n-ary and into the right-nested chain
    [a1 ? (a2 ? (... true ...) : false) : false] folded from the last
    operand, an n-ary or into the dual chain, and what it produces is
    never an and, or or implication node. *)
Theorem rewrite_boolean_chains (a : attr) (l : source_locationt)
    (ops : list exprt) (Hops : forallb is_boolean ops = true) :
  (forall lhs rhs,
     rewrite_boolean (mk_expr ID_implies a bool_typet l [lhs; rhs])
     = Some (if_exprt_typed lhs rhs true_exprt bool_typet))
  /\ rewrite_boolean (mk_expr ID_and a bool_typet l ops) = Some (and_chain_spec ops)
  /\ rewrite_boolean (mk_expr ID_or a bool_typet l ops) = Some (or_chain_spec ops)
  /\ (forall e r, rewrite_boolean e = Some r ->
        is_boolean_operator (expr_id r) = false).
Proof.
  split; [|split; [|split]].
  - intros lhs rhs; reflexivity.
  - unfold rewrite_boolean; simpl.
    induction ops as [|op ops IHops]; [reflexivity|].
    simpl in Hops |- *. apply andb_prop in Hops as [Hb Hr].
    rewrite (IHops Hr), Hb; simpl.
    unfold if_exprt, if_exprt_typed. rewrite and_chain_spec_type. reflexivity.
  - unfold rewrite_boolean; simpl.
    induction ops as [|op ops IHops]; [reflexivity|].
    simpl in Hops |- *. apply andb_prop in Hops as [Hb Hr].
    rewrite (IHops Hr), Hb; reflexivity.
  - intros e r H.
    destruct (rewrite_boolean_result_id e r H) as [-> | [_ ->]]; reflexivity.
Qed.

(** C10: an and (or) node with no operand becomes the constant true
    (false); with one Boolean operand [x], both become [x ? true : false],
    not the bare [x]. *)
Theorem rewrite_boolean_degenerate (a : attr) (l : source_locationt) (x : exprt)
    (Hx : is_boolean x = true) :
  rewrite_boolean (mk_expr ID_and a bool_typet l []) = Some true_exprt
  /\ rewrite_boolean (mk_expr ID_or a bool_typet l []) = Some false_exprt
  /\ rewrite_boolean (mk_expr ID_and a bool_typet l [x])
     = Some (if_exprt_typed x true_exprt false_exprt bool_typet)
  /\ rewrite_boolean (mk_expr ID_or a bool_typet l [x])
     = Some (if_exprt_typed x true_exprt false_exprt bool_typet)
  /\ rewrite_boolean (mk_expr ID_and a bool_typet l [x]) <> Some x
  /\ rewrite_boolean (mk_expr ID_or a bool_typet l [x]) <> Some x.
Proof.
  unfold rewrite_boolean; simpl; rewrite Hx; simpl.
  repeat split; intro H; injection H as H;
    exact (exprt_not_own_operand x _ _ _ _ _ (eq_sym H)).
Qed.

(** ** Claims about clean_expr, for any side-effect collaborators *)
Section CleanProps.

Variable remove_side_effect :
  exprt -> goto_programt -> bool -> bool -> M (exprt * goto_programt).
Variable remove_statement_expression :
  exprt -> goto_programt -> bool -> M (exprt * goto_programt).
Variable remove_function_call :
  exprt -> goto_programt -> bool -> M (exprt * goto_programt).
Variable assignment_lhs_needs_temporary : exprt -> bool.
Variable convert_assign : exprt -> exprt -> goto_programt -> M goto_programt.

Local Abbreviation CE :=
  (clean_expr remove_side_effect remove_statement_expression
     remove_function_call assignment_lhs_needs_temporary convert_assign).

Lemma clean_expr_no_cleaning n e dest used s :
  needs_cleaning e = false -> CE (S n) e dest used s = Some ((e, dest), s).
Proof. intro H. simpl. rewrite H. reflexivity. Qed.

Lemma clean_expr_zero e dest used s : CE 0 e dest used s = None.
Proof. reflexivity. Qed.

(** C9: a forall/exists node is left as it is: same node, no
    instruction appended, no temporary allocated. *)
Theorem clean_expr_quantifier_untouched n e dest used s
    (Hq : is_quantifier (expr_id e) = true) :
  CE (S n) e dest used s = Some ((e, dest), s).
Proof.
  apply clean_expr_no_cleaning.
  destruct e as [[] a t l ops]; simpl in Hq; try discriminate; reflexivity.
Qed.

(** C5: the condition of a conditional is lowered first, in used
    context; when neither branch needs cleaning that is all: the
    branches are untouched, no temporary, no branch-and-join. *)
Theorem clean_expr_if_condition_only n a ty l c t f dest used s c' d1 s1
    (Hc : CE n c dest true s = Some ((c', d1), s1))
    (Ht : needs_cleaning t = false) (Hf : needs_cleaning f = false) :
  CE (S n) (mk_expr ID_if a ty l [c; t; f]) dest used s
  = Some ((mk_expr ID_if a ty l [c'; t; f], d1), s1).
Proof.
  destruct (needs_cleaning c) eqn:Hnc.
  - simpl. rewrite Hnc. simpl. unfold bind at 1. rewrite Hc.
    rewrite Ht, Hf. reflexivity.
  - destruct n as [|n]; [discriminate|].
    rewrite clean_expr_no_cleaning in Hc by exact Hnc.
    injection Hc as <- <- <-.
    apply clean_expr_no_cleaning. simpl. rewrite Hnc, Ht, Hf. reflexivity.
Qed.

Lemma needs_cleaning_if a ty l c t f :
  needs_cleaning t || needs_cleaning f = true ->
  needs_cleaning (mk_expr ID_if a ty l [c; t; f]) = true.
Proof.
  intro H. simpl. destruct (needs_cleaning c); [reflexivity|].
  simpl. rewrite orb_false_r. exact H.
Qed.

(** C4: a conditional whose branches need cleaning, with its value
    used: one temporary of the conditional's type is allocated (and
    declared), each lowered branch is assigned to it at the end of its
    own fragment, the node becomes a reference to the temporary, and one
    branch-and-join construct runs the true fragment when the lowered
    condition holds and the false fragment otherwise. *)
Theorem clean_expr_if_used n a ty l c t f dest s c' d1 s1 t' dt s2 f' df s3
    (Hbr : needs_cleaning t || needs_cleaning f = true)
    (Hc : CE n c dest true s = Some ((c', d1), s1))
    (Hb : is_boolean c' = true)
    (Ht : CE n t [] true s1 = Some ((t', dt), s2))
    (Hf : CE n f [] true s2 = Some ((f', df), s3)) :
  let tmp := mk_expr ID_symbol (A_identifier (fresh_counter s3)) ty None [] in
  let ite := IFTHENELSE c' (dt ++ [ASSIGN tmp t']) (df ++ [ASSIGN tmp f']) in
  CE (S n) (mk_expr ID_if a ty l [c; t; f]) dest true s
  = Some ((tmp, d1 ++ [DECL tmp; ite]),
          mk_state
            (mk_symbol (fresh_counter s3) "tmp_if_expr" ty
               (find_source_location (mk_expr ID_if a ty l [c'; t; f])) false nil_exprt
             :: symbol_table s3)
            (S (fresh_counter s3)) (DEAD tmp :: scope_stack s3) (lifetime s3))
  /\ (forall holds, exec_prog holds [ite]
        = if holds c' then exec_prog holds dt ++ [ASSIGN tmp t']
          else exec_prog holds df ++ [ASSIGN tmp f']).
Proof.
  intros tmp ite. split.
  - pose proof (needs_cleaning_if a ty l c t f Hbr) as Hn.
    cbn -[needs_cleaning]. rewrite Hn. cbn -[needs_cleaning].
    unfold bind at 1. rewrite Hc.
    destruct (needs_cleaning t), (needs_cleaning f); try discriminate; simpl;
    rewrite Hb; unfold bind; cbn [negb]; rewrite Ht, Hf; simpl;
    cbv [ret generate_ifthenelse convert_code_assign symbol_expr];
    rewrite <- app_assoc; reflexivity.
  - intro holds.
    change (exec_prog holds [ite]) with (exec_instr holds ite ++ []).
    rewrite app_nil_r. unfold ite. rewrite exec_instr_ite, !exec_prog_app.
    reflexivity.
Qed.

(** C6 (amended): a conditional whose branches need cleaning, with its
    value discarded: each lowered branch that is not nil is appended to
    its fragment as a void-cast expression-statement (a nil branch adds
    nothing), no temporary is allocated, the node becomes nil, and one
    branch-and-join construct is emitted. *)
Theorem clean_expr_if_discarded n a ty l c t f dest s c' d1 s1 t' dt s2 f' df s3
    (Hbr : needs_cleaning t || needs_cleaning f = true)
    (Hc : CE n c dest true s = Some ((c', d1), s1))
    (Hb : is_boolean c' = true)
    (Ht : CE n t [] false s1 = Some ((t', dt), s2))
    (Hf : CE n f [] false s2 = Some ((f', df), s3)) :
  CE (S n) (mk_expr ID_if a ty l [c; t; f]) dest false s
  = Some ((nil_exprt,
           d1 ++ [IFTHENELSE c'
                    (if is_nil t' then dt
                     else dt ++ [EXPRESSION (typecast_exprt t' empty_typet)])
                    (if is_nil f' then df
                     else df ++ [EXPRESSION (typecast_exprt f' empty_typet)])]),
          s3).
Proof.
  pose proof (needs_cleaning_if a ty l c t f Hbr) as Hn.
  cbn -[needs_cleaning]. rewrite Hn. cbn -[needs_cleaning].
  unfold bind at 1. rewrite Hc.
  destruct (needs_cleaning t), (needs_cleaning f); try discriminate; simpl;
  rewrite Hb; unfold bind; cbn [negb]; rewrite Ht, Hf; simpl;
  destruct (is_nil t'), (is_nil f'); reflexivity.
Qed.

(** Left-to-right lowering of a comma whose value is used: the first
    operand is lowered as discarded and kept as an expression-statement
    when not nil, then the rest. *)
Lemma clean_comma_used_step n a ty l x y rest dest s :
  CE (S n) (mk_expr ID_comma a ty l (x :: y :: rest)) dest true s
  = match CE n x dest false s with
    | Some ((x', d1), s1) =>
        CE (S n) (mk_expr ID_comma a ty l (y :: rest))
           (if is_nil x' then d1 else d1 ++ [EXPRESSION x']) true s1
    | None => None
    end.
Proof.
  simpl. unfold bind at 1.
  destruct (CE n x dest false s) as [[[x' d1] s1]|]; [|reflexivity].
  destruct (is_nil x'); reflexivity.
Qed.

Lemma clean_comma_used_last n a ty l y dest s :
  CE (S n) (mk_expr ID_comma a ty l [y]) dest true s = CE n y dest true s.
Proof. reflexivity. Qed.

Lemma clean_comma_discarded_step n a ty l x rest dest s :
  CE (S n) (mk_expr ID_comma a ty l (x :: rest)) dest false s
  = match CE n x dest false s with
    | Some ((x', d1), s1) =>
        CE (S n) (mk_expr ID_comma a ty l rest)
           (if is_nil x' then d1 else d1 ++ [EXPRESSION x']) false s1
    | None => None
    end.
Proof.
  simpl. unfold bind at 1 2. unfold bind at 1.
  destruct (CE n x dest false s) as [[[x' d1] s1]|]; [|reflexivity].
  destruct (is_nil x'); reflexivity.
Qed.

Lemma clean_comma_discarded_nil n a ty l : forall ops dest s e' d' s',
  CE (S n) (mk_expr ID_comma a ty l ops) dest false s = Some ((e', d'), s') ->
  e' = nil_exprt.
Proof.
  induction ops as [|x rest IH]; intros dest s e' d' s' H.
  - simpl in H. injection H as <- _ _. reflexivity.
  - rewrite clean_comma_discarded_step in H.
    destruct (CE n x dest false s) as [[[x' d1] s1]|]; [|discriminate].
    exact (IH _ _ _ _ _ H).
Qed.

(** C7 (amended): a comma is lowered left to right: every operand but
    the last is lowered as discarded and, unless it lowered to nil,
    emitted as an expression-statement; with the value used the last
    operand is lowered in used context and is the result; with the
    value discarded the last one is handled like the others and the
    result is nil. *)
Theorem clean_expr_comma n a ty l :
  (forall x y rest dest s,
     CE (S n) (mk_expr ID_comma a ty l (x :: y :: rest)) dest true s
     = match CE n x dest false s with
       | Some ((x', d1), s1) =>
           CE (S n) (mk_expr ID_comma a ty l (y :: rest))
              (if is_nil x' then d1 else d1 ++ [EXPRESSION x']) true s1
       | None => None
       end)
  /\ (forall y dest s,
        CE (S n) (mk_expr ID_comma a ty l [y]) dest true s = CE n y dest true s)
  /\ (forall x rest dest s,
        CE (S n) (mk_expr ID_comma a ty l (x :: rest)) dest false s
        = match CE n x dest false s with
          | Some ((x', d1), s1) =>
              CE (S n) (mk_expr ID_comma a ty l rest)
                 (if is_nil x' then d1 else d1 ++ [EXPRESSION x']) false s1
          | None => None
          end)
  /\ (forall ops dest s e' d' s',
        CE (S n) (mk_expr ID_comma a ty l ops) dest false s = Some ((e', d'), s') ->
        e' = nil_exprt).
Proof.
  split; [|split; [|split]].
  - intros; apply clean_comma_used_step.
  - intros; apply clean_comma_used_last.
  - intros; apply clean_comma_discarded_step.
  - apply clean_comma_discarded_nil.
Qed.

Lemma clean_expr_boolop n e dest u s :
  needs_cleaning e = true -> is_boolean_operator (expr_id e) = true ->
  CE (S n) e dest u s
  = match rewrite_boolean e with Some e' => CE n e' dest u s | None => None end.
Proof.
  intros Hn Hb.
  destruct e as [[] a t l ops]; try discriminate Hb;
  cbn -[needs_cleaning rewrite_boolean]; rewrite Hn; cbn [negb];
  destruct (rewrite_boolean _); reflexivity.
Qed.

Local Abbreviation CEA :=
  (clean_expr_address_of remove_side_effect remove_statement_expression
     remove_function_call assignment_lhs_needs_temporary convert_assign).






End CleanProps.

(** ** Claim about make_compound_literal *)

Lemma update_fresh_symbol_map (sym : symbolt) (n : nat) (tbl : list symbolt) :
  Forall (fun x => sym_name x <> n) tbl ->
  map (fun x => if Nat.eqb (sym_name x) n then sym else x) tbl = tbl.
Proof.
  induction 1 as [|x tbl Hx _ IH]; simpl; [reflexivity|].
  apply Nat.eqb_neq in Hx. rewrite Hx, IH. reflexivity.
Qed.

(** C8: for a literal that needs no cleaning, [make_compound_literal]
    allocates exactly one fresh symbol of the literal's type, static
    exactly when the lifetime is not AUTOMATIC_LOCAL; a block-scoped one
    is declared at once and gets a DEAD marker on the scope stack, a
    static one gets neither; the result is a bare symbol reference
    carrying the literal's source location.  The precondition is that
    of the only caller, [clean_expr_address_of], which lowers the operand
    before passing it on; for such a literal, converting the assignment
    into the temporary emits just that assignment. *)
Theorem make_compound_literal_spec (e : exprt) (dest : goto_programt)
    (s : conv_state)
    (Hclean : needs_cleaning e = false)
    (Hfresh : Forall (fun x => sym_name x <> fresh_counter s) (symbol_table s)) :
  let static := negb (lifetime_eqb (lifetime s) AUTOMATIC_LOCAL) in
  let r := mk_expr ID_symbol (A_identifier (fresh_counter s)) (expr_type e)
             (find_source_location e) [] in
  make_compound_literal e dest s
  = Some ((r, if static then dest ++ [ASSIGN r e] else dest ++ [DECL r; ASSIGN r e]),
          mk_state
            (mk_symbol (fresh_counter s) "literal" (expr_type e)
               (find_source_location e) static e :: symbol_table s)
            (S (fresh_counter s))
            (if static then scope_stack s else DEAD r :: scope_stack s)
            (lifetime s))
  /\ (static = true <-> lifetime s <> AUTOMATIC_LOCAL).
Proof.
  intros static r. split.
  - unfold make_compound_literal, bind, get_fresh_aux_symbol, get,
      update_symbol, ret, scope_stack_add, convert_code_assign; simpl.
    rewrite Nat.eqb_refl.
    rewrite (update_fresh_symbol_map _ (fresh_counter s) (symbol_table s) Hfresh).
    unfold static, r; destruct (lifetime s); simpl;
      rewrite <- ?app_assoc; reflexivity.
  - unfold static; destruct (lifetime s); simpl; split;
      congruence || (intros; discriminate) || reflexivity.
Qed.

(** ** Witnesses: the theorems at concrete inputs *)


Lemma rewrite_boolean_chains_witness :
  forallb is_boolean [sym_bool 1; sym_bool 2] = true
  /\ rewrite_boolean (mk_expr ID_and A_none bool_typet None [sym_bool 1; sym_bool 2])
     = Some (and_chain_spec [sym_bool 1; sym_bool 2])
  /\ rewrite_boolean (mk_expr ID_or A_none bool_typet None [sym_bool 1; sym_bool 2])
     = Some (or_chain_spec [sym_bool 1; sym_bool 2]).
Proof.
  assert (H : forallb is_boolean [sym_bool 1; sym_bool 2] = true) by reflexivity.
  destruct (rewrite_boolean_chains A_none None [sym_bool 1; sym_bool 2] H)
    as [_ [Hand [Hor _]]].
  split; [exact H | split; [exact Hand | exact Hor]].
Defined.

Lemma rewrite_boolean_degenerate_witness :
  is_boolean (sym_bool 1) = true
  /\ rewrite_boolean (mk_expr ID_and A_none bool_typet None [sym_bool 1])
     = Some (if_exprt_typed (sym_bool 1) true_exprt false_exprt bool_typet).
Proof.
  assert (H : is_boolean (sym_bool 1) = true) by reflexivity.
  split; [exact H|].
  exact (proj1 (proj2 (proj2 (rewrite_boolean_degenerate A_none None (sym_bool 1) H)))).
Defined.

Lemma clean_expr_quantifier_untouched_witness :
  is_quantifier (expr_id forall_sample) = true
  /\ sample_clean_expr 1 forall_sample [] true init_state
     = Some ((forall_sample, []), init_state).
Proof.
  split; [reflexivity|].
  apply (clean_expr_quantifier_untouched
           sample_remove_side_effect sample_remove_statement_expression
           sample_remove_function_call (fun _ => false) sample_convert_assign
           0 forall_sample [] true init_state).
  reflexivity.
Defined.

Lemma clean_expr_if_condition_only_witness :
  sample_clean_expr 1 call_bool [] true init_state
  = Some ((call_result bool_typet, [INSTR_other 0 [call_bool]]), init_state)
  /\ sample_clean_expr 2 (if_int call_bool (sym_int 1) (sym_int 2)) [] false init_state
     = Some ((if_int (call_result bool_typet) (sym_int 1) (sym_int 2),
              [INSTR_other 0 [call_bool]]), init_state).
Proof.
  assert (Hc : sample_clean_expr 1 call_bool [] true init_state
               = Some ((call_result bool_typet, [INSTR_other 0 [call_bool]]), init_state))
    by reflexivity.
  split; [exact Hc|].
  exact (clean_expr_if_condition_only
           sample_remove_side_effect sample_remove_statement_expression
           sample_remove_function_call (fun _ => false) sample_convert_assign
           1 A_none (typet_other 0) None call_bool (sym_int 1) (sym_int 2) [] false
           init_state _ _ _ Hc eq_refl eq_refl).
Defined.

Lemma clean_expr_if_used_witness :
  needs_cleaning call_int || needs_cleaning (sym_int 4) = true
  /\ is_boolean (sym_bool 1) = true
  /\ exists s',
     sample_clean_expr 2 (if_int (sym_bool 1) call_int (sym_int 4)) [] true init_state
     = Some ((mk_expr ID_symbol (A_identifier 0) (typet_other 0) None [],
              [DECL (mk_expr ID_symbol (A_identifier 0) (typet_other 0) None []);
               IFTHENELSE (sym_bool 1)
                 [INSTR_other 0 [call_int];
                  ASSIGN (mk_expr ID_symbol (A_identifier 0) (typet_other 0) None [])
                         (call_result (typet_other 0))]
                 [ASSIGN (mk_expr ID_symbol (A_identifier 0) (typet_other 0) None [])
                         (sym_int 4)]]), s').
Proof.
  split; [reflexivity|split; [reflexivity|]].
  eexists.
  exact (proj1 (clean_expr_if_used
           sample_remove_side_effect sample_remove_statement_expression
           sample_remove_function_call (fun _ => false) sample_convert_assign
           1 A_none (typet_other 0) None (sym_bool 1) call_int (sym_int 4) []
           init_state (sym_bool 1) [] init_state
           (call_result (typet_other 0)) [INSTR_other 0 [call_int]] init_state
           (sym_int 4) [] init_state
           eq_refl eq_refl eq_refl eq_refl eq_refl)).
Defined.

Lemma clean_expr_if_discarded_witness :
  needs_cleaning call_int || needs_cleaning (sym_int 4) = true
  /\ sample_clean_expr 2 (if_int (sym_bool 1) call_int (sym_int 4)) [] false init_state
     = Some ((nil_exprt,
              [IFTHENELSE (sym_bool 1)
                 [INSTR_other 0 [call_int]]
                 [EXPRESSION (typecast_exprt (sym_int 4) empty_typet)]]), init_state).
Proof.
  split; [reflexivity|].
  exact (clean_expr_if_discarded
           sample_remove_side_effect sample_remove_statement_expression
           sample_remove_function_call (fun _ => false) sample_convert_assign
           1 A_none (typet_other 0) None (sym_bool 1) call_int (sym_int 4) []
           init_state (sym_bool 1) [] init_state
           nil_exprt [INSTR_other 0 [call_int]] init_state
           (sym_int 4) [] init_state
           eq_refl eq_refl eq_refl eq_refl eq_refl).
Defined.

Lemma make_compound_literal_spec_witness :
  needs_cleaning (mk_expr ID_constant (A_value 5) (typet_other 0) (Some 3) []) = false
  /\ Forall (fun x => sym_name x <> fresh_counter init_state) (symbol_table init_state)
  /\ make_compound_literal (mk_expr ID_constant (A_value 5) (typet_other 0) (Some 3) [])
       [] init_state
     = Some ((mk_expr ID_symbol (A_identifier 0) (typet_other 0) (Some 3) [],
              [DECL (mk_expr ID_symbol (A_identifier 0) (typet_other 0) (Some 3) []);
               ASSIGN (mk_expr ID_symbol (A_identifier 0) (typet_other 0) (Some 3) [])
                      (mk_expr ID_constant (A_value 5) (typet_other 0) (Some 3) [])]),
             mk_state
               [mk_symbol 0 "literal" (typet_other 0) (Some 3) false
                  (mk_expr ID_constant (A_value 5) (typet_other 0) (Some 3) [])]
               1 [DEAD (mk_expr ID_symbol (A_identifier 0) (typet_other 0) (Some 3) [])]
               AUTOMATIC_LOCAL).
Proof.
  assert (H : Forall (fun x => sym_name x <> fresh_counter init_state)
                     (symbol_table init_state)) by constructor.
  split; [reflexivity|]. split; [exact H|].
  exact (proj1 (make_compound_literal_spec
           (mk_expr ID_constant (A_value 5) (typet_other 0) (Some 3) []) [] init_state
           eq_refl H)).
Defined.

(** ** Counterexamples to claims as stated *)


(** C6: in [c ? (x, y) : z] with the value discarded the true branch
    lowers to nil, and its fragment gets no void-cast statement. *)
Lemma clean_expr_if_discarded_nil_branch_cex :
  sample_clean_expr 2 (comma_int [sym_int 2; sym_int 3]) [] false init_state
  = Some ((nil_exprt, [EXPRESSION (sym_int 2); EXPRESSION (sym_int 3)]), init_state)
  /\ sample_clean_expr 3 (if_int (sym_bool 1) (comma_int [sym_int 2; sym_int 3]) (sym_int 4))
       [] false init_state
     = Some ((nil_exprt,
              [IFTHENELSE (sym_bool 1)
                 [EXPRESSION (sym_int 2); EXPRESSION (sym_int 3)]
                 [EXPRESSION (typecast_exprt (sym_int 4) empty_typet)]]), init_state)
  /\ ~ (exists pre, [EXPRESSION (sym_int 2); EXPRESSION (sym_int 3)]
                    = pre ++ [EXPRESSION (typecast_exprt nil_exprt empty_typet)]).
Proof.
  split; [reflexivity|split; [reflexivity|]].
  intros [pre H]. apply (f_equal (@rev instructiont)) in H.
  rewrite rev_app_distr in H. simpl in H. discriminate H.
Qed.

(** C7: in [((x, y), z)] with the value used, the first operand lowers
    to nil and is not emitted as an expression-statement (only [x] and
    [y] are). *)
Lemma clean_expr_comma_nil_operand_cex :
  sample_clean_expr 2 (comma_int [sym_int 1; sym_int 2]) [] false init_state
  = Some ((nil_exprt, [EXPRESSION (sym_int 1); EXPRESSION (sym_int 2)]), init_state)
  /\ sample_clean_expr 3 (comma_int [comma_int [sym_int 1; sym_int 2]; sym_int 3])
       [] true init_state
     = Some ((sym_int 3, [EXPRESSION (sym_int 1); EXPRESSION (sym_int 2)]), init_state)
  /\ ~ In (EXPRESSION nil_exprt) [EXPRESSION (sym_int 1); EXPRESSION (sym_int 2)].
Proof.
  split; [reflexivity|split; [reflexivity|]].
  simpl. intros [H|[H|[]]]; discriminate H.
Qed.

(** The gcc [a ?: b] path lowers the rebuilt conditional in used
    context even when the value is discarded: the residual is the
    conditional's temporary. *)
Example gcc_conditional_discarded_uses_temporary :
  match sample_clean_expr 4
          (mk_expr ID_side_effect (A_statement ID_gcc_conditional_expression)
             bool_typet None [sym_bool 1; call_bool]) [] false init_state with
  | Some ((e, _), s') =>
      e = mk_expr ID_symbol (A_identifier 0) bool_typet None [] /\ fresh_counter s' = 1
  | None => False
  end.
Proof. vm_compute. split; reflexivity. Qed.


Section CleanMore.

Variable remove_side_effect :
  exprt -> goto_programt -> bool -> bool -> M (exprt * goto_programt).
Variable remove_statement_expression :
  exprt -> goto_programt -> bool -> M (exprt * goto_programt).
Variable remove_function_call :
  exprt -> goto_programt -> bool -> M (exprt * goto_programt).
Variable assignment_lhs_needs_temporary : exprt -> bool.
Variable convert_assign : exprt -> exprt -> goto_programt -> M goto_programt.

Local Abbreviation CE :=
  (clean_expr remove_side_effect remove_statement_expression
     remove_function_call assignment_lhs_needs_temporary convert_assign).
Local Abbreviation CEA :=
  (clean_expr_address_of remove_side_effect remove_statement_expression
     remove_function_call assignment_lhs_needs_temporary convert_assign).

(** X11: [clean_expr] replaces a compound literal by its cleaned operand,
    cleaned as used, and adds no instruction of its own.  Under
    [address_of], [clean_expr_address_of] instead cleans the operand and
    hands it to [make_compound_literal], so that the address is taken of the
    new object. *)
Theorem clean_expr_compound_literal n a ty l op a' ty' l' dest used s :
  CE (S n) (mk_expr ID_compound_literal a ty l [op]) dest used s = CE n op dest true s
  /\ CE (S (S n))
       (mk_expr ID_address_of a' ty' l' [mk_expr ID_compound_literal a ty l [op]]) dest used s
     = match CE n op dest true s with
       | Some ((op', d), s1) =>
           match make_compound_literal op' d s1 with
           | Some ((r, d'), s2) => Some ((mk_expr ID_address_of a' ty' l' [r], d'), s2)
           | None => None
           end
       | None => None
       end.
Proof.
  split.
  - simpl. unfold bind, ret. destruct (CE n op dest true s) as [[[o d] s1]|]; reflexivity.
  - simpl. unfold bind.
    destruct (CE n op dest true s) as [[[o d] s1]|]; [|reflexivity].
    destruct (make_compound_literal o d s1) as [[[r d'] s2]|]; reflexivity.
Qed.

(** X12: [clean_expr_address_of] on a comma expression cleans every operand
    but the last as discarded, and emits the cleaned operand as an
    EXPRESSION instruction unless it became nil.  The last operand goes
    through [clean_expr_address_of] again, and becomes the result. *)
Theorem clean_expr_address_of_comma n a ty l :
  (forall x y rest dest s,
     CEA (S n) (mk_expr ID_comma a ty l (x :: y :: rest)) dest s
     = match CE n x dest false s with
       | Some ((x', d1), s1) =>
           CEA (S n) (mk_expr ID_comma a ty l (y :: rest))
               (if is_nil x' then d1 else d1 ++ [EXPRESSION x']) s1
       | None => None
       end)
  /\ (forall y dest s,
        CEA (S n) (mk_expr ID_comma a ty l [y]) dest s = CEA n y dest s).
Proof.
  split.
  - intros x y rest dest s. simpl. unfold bind at 1. unfold bind at 1.
    destruct (CE n x dest false s) as [[[x' d1] s1]|]; [|reflexivity].
    destruct (is_nil x'); reflexivity.
  - reflexivity.
Qed.

(** X13: [clean_expr] turns a GCC conditional [a ?: b] into an if
    expression.  It cleans [a] as used, then cleans [a' ? a' : b] with the
    condition cast to bool.  When neither operand needs cleaning, the result
    is that if expression and no instruction is added. *)
Theorem clean_expr_gcc_conditional n ty l op0 op1 dest used s :
  let e := mk_expr ID_side_effect (A_statement ID_gcc_conditional_expression) ty l [op0; op1] in
  CE (S (S n)) e dest used s
  = match CE n op0 dest true s with
    | Some ((op0', d), s1) =>
        CE n (with_location (if_exprt_typed (conditional_cast op0' bool_typet) op0' op1 ty) l)
           d true s1
    | None => None
    end
  /\ (needs_cleaning op0 = false -> needs_cleaning op1 = false ->
      CE (S (S (S n))) e dest used s
      = Some ((with_location (if_exprt_typed (conditional_cast op0 bool_typet) op0 op1 ty) l,
               dest), s)).
Proof.
  intro e.
  assert (Hgen : forall m, CE (S (S m)) e dest used s
    = match CE m op0 dest true s with
      | Some ((op0', d), s1) =>
          CE m (with_location (if_exprt_typed (conditional_cast op0' bool_typet) op0' op1 ty) l)
             d true s1
      | None => None
      end).
  { intro m. simpl. unfold bind. destruct (CE m op0 dest true s) as [[[o d] s1]|]; reflexivity. }
  split; [apply Hgen|].
  intros H0 H1.
  assert (Hc : needs_cleaning
                 (with_location (if_exprt_typed (conditional_cast op0 bool_typet) op0 op1 ty) l)
               = false).
  { simpl. rewrite H0, H1. unfold conditional_cast.
    destruct (typet_eqb (expr_type op0) bool_typet); simpl; rewrite ?H0; reflexivity. }
  rewrite (Hgen (S n)).
  rewrite (clean_expr_no_cleaning remove_side_effect remove_statement_expression
             remove_function_call assignment_lhs_needs_temporary convert_assign n op0 dest true s H0).
  exact (clean_expr_no_cleaning remove_side_effect remove_statement_expression
             remove_function_call assignment_lhs_needs_temporary convert_assign n _ dest true s Hc).
Qed.

(** X14: [clean_expr] on an assignment whose right-hand side is a function
    call.  The call is only moved out through [remove_function_call] when
    [assignment_lhs_needs_temporary] says so.  Otherwise [convert_assign]
    gets the call itself.  The value of a used assignment is the lhs, or the
    cast call result; a discarded assignment yields nil. *)
Theorem clean_expr_assign_call n ty l lhs rhs dest used s
    (Hlhs : needs_cleaning lhs = false)
    (Hrhs : expr_id rhs = ID_side_effect)
    (Hcall : statement_is rhs ID_function_call = true) :
  let e := mk_expr ID_side_effect (A_statement ID_assign) ty l [lhs; rhs] in
  let new_lhs := skip_typecast lhs in
  (assignment_lhs_needs_temporary lhs = false ->
     CE (S (S n)) e dest used s
     = match convert_assign new_lhs (conditional_cast rhs (expr_type new_lhs)) dest s with
       | Some (d, s1) => Some ((if used then lhs else nil_exprt, d), s1)
       | None => None
       end)
  /\ (assignment_lhs_needs_temporary lhs = true ->
     CE (S (S n)) e dest used s
     = match remove_function_call rhs dest true s with
       | Some ((rhs', d), s1) =>
           let new_rhs := conditional_cast rhs' (expr_type new_lhs) in
           match convert_assign new_lhs new_rhs d s1 with
           | Some (d', s2) => Some ((if used then new_rhs else nil_exprt, d'), s2)
           | None => None
           end
       | None => None
       end).
Proof.
  intros e new_lhs.
  assert (Hstep : forall m, CE (S m) e dest used s
    = match CE m lhs dest true s with
      | Some ((lhs', d1), s1) =>
          (let* '(rhs, dest) :=
             if assignment_lhs_needs_temporary lhs' then remove_function_call rhs d1 true
             else ret (rhs, d1) in
           let* dest := convert_assign (skip_typecast lhs')
                          (conditional_cast rhs (expr_type (skip_typecast lhs'))) dest in
           if used then ret (if assignment_lhs_needs_temporary lhs' then
                               conditional_cast rhs (expr_type (skip_typecast lhs')) else lhs', dest)
           else ret (nil_exprt, dest)) s1
      | None => None
      end).
  { intro m. unfold e. destruct rhs as [ri ra rt rl rops]. simpl in Hrhs. subst ri.
    unfold statement_is, get_statement in Hcall. simpl in Hcall.
    destruct ra as [|st| | |]; try discriminate. destruct st; try discriminate.
    simpl. unfold bind at 1.
    destruct (CE m lhs dest true s) as [[[lhs' d1] s1]|]; [|reflexivity].
    destruct (assignment_lhs_needs_temporary lhs'); reflexivity. }
  rewrite (Hstep (S n)).
  rewrite (clean_expr_no_cleaning remove_side_effect remove_statement_expression
             remove_function_call assignment_lhs_needs_temporary convert_assign n lhs dest true s Hlhs).
  split; intro Ht; rewrite Ht; unfold bind, ret; fold new_lhs.
  - destruct (convert_assign _ _ dest s) as [[d s1]|]; [destruct used|]; reflexivity.
  - destruct (remove_function_call rhs dest true s) as [[[r d] s1]|]; [|reflexivity].
    destruct (convert_assign _ _ d s1) as [[d' s2]|]; [destruct used|]; reflexivity.
Qed.

(** X15: [clean_expr] fails (returns no result) on a boolean operator
    ([and], [or], [implies]) that is not of bool type and has an operand
    that needs cleaning.  An [implies] of bool type whose operands need
    cleaning is cleaned as the if expression [x ? y : true]. *)
Theorem clean_expr_boolean_operator n a l dest used s :
  (forall i ty ops,
     is_boolean_operator i = true -> ty <> bool_typet ->
     existsb needs_cleaning ops = true ->
     CE (S n) (mk_expr i a ty l ops) dest used s = None)
  /\ (forall x y,
        needs_cleaning x || needs_cleaning y = true ->
        CE (S n) (mk_expr ID_implies a bool_typet l [x; y]) dest used s
        = CE n (if_exprt_typed x y true_exprt bool_typet) dest used s).
Proof.
  split.
  - intros i ty ops Hi Hty Hn.
    assert (Hne : needs_cleaning (mk_expr i a ty l ops) = true).
    { rewrite needs_cleaning_eq. destruct i; try discriminate Hi; exact Hn. }
    rewrite (clean_expr_boolop remove_side_effect remove_statement_expression
               remove_function_call assignment_lhs_needs_temporary convert_assign
               n _ dest used s Hne Hi).
    unfold rewrite_boolean. cbn [expr_id].
    replace (is_boolean (mk_expr i a ty l ops)) with false.
    + destruct i; try discriminate Hi; reflexivity.
    + unfold is_boolean. simpl. destruct ty; try reflexivity. congruence.
  - intros x y Hn.
    rewrite (clean_expr_boolop remove_side_effect remove_statement_expression
               remove_function_call assignment_lhs_needs_temporary convert_assign
               n _ dest used s); [reflexivity| |reflexivity].
    rewrite needs_cleaning_eq. simpl. rewrite orb_false_r. exact Hn.
Qed.

End CleanMore.




Lemma byte_check_ok p :
  byte_check p = true -> forall b, (0 <= b < 256)%Z -> p b = true.
Proof.
  unfold byte_check; rewrite forallb_forall; intros H b Hb.
  apply H, in_map_iff. exists (Z.to_nat b). split; [lia|].
  apply in_seq. lia.
Qed.

Lemma low7_facts v : (0 <= v < 128)%Z ->
  Z.land v 255 = v /\ Z.land v 127 = v /\ Z.land v 128 = 0%Z
  /\ Z.land (Z.lor v 128) 255 = Z.lor v 128
  /\ Z.land (Z.lor v 128) 127 = v /\ Z.land (Z.lor v 128) 128 <> 0%Z
  /\ (128 <= Z.lor v 128 < 256)%Z.
Proof.
  intro Hv.
  assert (H := byte_check_ok
    (fun b => negb (b <? 128)%Z ||
       ((Z.land b 255 =? b) && (Z.land b 127 =? b) && (Z.land b 128 =? 0)
        && (Z.land (Z.lor b 128) 255 =? Z.lor b 128)
        && (Z.land (Z.lor b 128) 127 =? b) && negb (Z.land (Z.lor b 128) 128 =? 0)
        && (128 <=? Z.lor b 128) && (Z.lor b 128 <? 256))%Z)
    eq_refl v ltac:(lia)).
  cbv beta in H. replace (v <? 128)%Z with true in H by (symmetry; apply Z.ltb_lt; lia).
  simpl in H. repeat rewrite andb_true_iff in H.
  destruct H as [[[[[[[H1 H2] H3] H4] H5] H6] H7] H8].
  apply Z.eqb_eq in H1, H2, H3, H4, H5. apply negb_true_iff, Z.eqb_neq in H6.
  apply Z.leb_le in H7. apply Z.ltb_lt in H8.
  repeat split; assumption.
Qed.

Lemma land_127 u : Z.land u 127 = (u mod 128)%Z.
Proof. change 127%Z with (Z.ones 7). rewrite Z.land_ones by lia. reflexivity. Qed.

Lemma shiftr_7 u : Z.shiftr u 7 = (u / 128)%Z.
Proof. rewrite Z.shiftr_div_pow2 by lia. reflexivity. Qed.

Lemma land_mask x : Z.land x size_t_mask = (x mod 2 ^ 64)%Z.
Proof.
  unfold size_t_mask, size_t_bits. change (2 ^ 64 - 1)%Z with (Z.ones 64).
  rewrite Z.land_ones by lia. reflexivity.
Qed.

Lemma lor_low_high a y s : (0 <= s)%Z -> (0 <= a < 2 ^ s)%Z ->
  Z.lor a (y * 2 ^ s) = (a + y * 2 ^ s)%Z.
Proof.
  intros Hs Ha.
  assert (Hl : Z.land a (y * 2 ^ s) = 0%Z).
  { apply Z.bits_inj'. intros n Hn. rewrite Z.land_spec, Z.bits_0.
    destruct (Z.lt_ge_cases n s) as [Hlt|Hge].
    - rewrite <- Z.shiftl_mul_pow2 by lia. rewrite Z.shiftl_spec_low by lia.
      apply andb_false_r.
    - rewrite <- (Z.mod_small a (2 ^ s)) by lia.
      rewrite Z.mod_pow2_bits_high by lia. reflexivity. }
  rewrite Z.add_nocarry_lxor by exact Hl. symmetry. apply Z.lxor_lor. exact Hl.
Qed.

Lemma read_write_gb_word_loop f : forall u res k m rest,
  (0 <= u < 2 ^ (7 * Z.of_nat f))%Z -> (1 <= f)%nat ->
  (k + f <= 10)%nat -> (f <= m)%nat ->
  (0 <= res < 2 ^ (7 * Z.of_nat k))%Z ->
  (res + u * 2 ^ (7 * Z.of_nat k) < 2 ^ 64)%Z ->
  read_gb_word_loop (S m) res (7 * Z.of_nat k)
    (mk_istream (write_gb_word_loop f u ++ rest) true)
  = Ok ((res + u * 2 ^ (7 * Z.of_nat k))%Z, mk_istream rest true).
Proof.
  induction f as [|f IH]; intros u res k m rest Hu Hf Hk Hm Hres Hsum; [lia|].
  remember (7 * Z.of_nat k)%Z as sh eqn:Hsh.
  set (P := (2 ^ sh)%Z) in *.
  assert (HP : (0 < P)%Z) by (apply Z.pow_pos_nonneg; lia).
  assert (Hshift : (sh <? size_t_bits)%Z = true)
    by (apply Z.ltb_lt; unfold size_t_bits; lia).
  assert (Hv : (0 <= u mod 128 < 128)%Z) by (apply Z.mod_pos_bound; lia).
  destruct (low7_facts _ Hv) as (H1 & H2 & H3 & H4 & H5 & H6 & H7).
  assert (Hdiv : u = (128 * (u / 128) + u mod 128)%Z) by (apply Z.div_mod; lia).
  assert (Hq : (0 <= u / 128)%Z) by (apply Z.div_pos; lia).
  assert (Hpay : ((u mod 128) * P < 2 ^ 64)%Z) by nia.
  cbn [write_gb_word_loop]. rewrite land_127, shiftr_7.
  cbn [read_gb_word_loop]. unfold istream_get; cbn [in_good in_rest].
  rewrite Z.leb_antisym, Hshift; cbn [negb].
  destruct (u / 128 =? 0)%Z eqn:Hz.
  - apply Z.eqb_eq in Hz. cbn [app].
    rewrite H1, H2, H3. rewrite Z.shiftl_mul_pow2 by lia. fold P.
    rewrite land_mask, Z.mod_small by nia. rewrite Z.eqb_refl.
    unfold P; rewrite lor_low_high by lia. fold P.
    f_equal. f_equal. rewrite Hdiv at 2. rewrite Hz. ring.
  - apply Z.eqb_neq in Hz. cbn [app].
    rewrite H4, H5. rewrite Z.shiftl_mul_pow2 by lia. fold P.
    rewrite land_mask, (Z.mod_small (u mod 128 * P)) by nia.
    unfold P; rewrite lor_low_high by lia. fold P.
    destruct (Z.land (Z.lor (u mod 128) 128) 128 =? 0)%Z eqn:Hc;
      [apply Z.eqb_eq in Hc; contradiction|].
    destruct f as [|f]; [simpl in Hu; exfalso; apply Hz; apply Z.div_small; lia|].
    destruct m as [|m]; [lia|].
    replace (sh + 7)%Z with (7 * Z.of_nat (S k))%Z by lia.
    assert (HP' : (2 ^ (7 * Z.of_nat (S k)) = P * 128)%Z).
    { unfold P. rewrite Hsh, Nat2Z.inj_succ, Z.mul_succ_r, Z.pow_add_r by lia. reflexivity. }
    rewrite IH; [ | | lia | lia | lia | |].
    + f_equal. f_equal. rewrite HP'. rewrite Hdiv at 3. ring.
    + split; [exact Hq|]. rewrite Nat2Z.inj_succ, Z.mul_succ_r, Z.pow_add_r in Hu by lia.
      change (2 ^ 7)%Z with 128%Z in Hu. nia.
    + rewrite HP'. nia.
    + rewrite HP'. nia.
Qed.

Lemma read_write_gb_word (u : Z) (rest : list Z) (Hu : (0 <= u < 2 ^ 64)%Z) :
  read_gb_word (mk_istream (write_gb_word u ++ rest) true)
  = Ok (u, mk_istream rest true).
Proof.
  unfold read_gb_word, write_gb_word.
  change 0%Z with (7 * Z.of_nat 0)%Z at 2.
  rewrite (read_write_gb_word_loop 10 u 0 0 10 rest); [|change (2 ^ (7 * Z.of_nat 10))%Z with (2^70)%Z; split; [lia|]; apply Z.lt_le_trans with (2^64)%Z; [lia|apply Z.pow_le_mono_r; lia] | lia | lia | lia | simpl; lia | simpl; lia].
  simpl. f_equal. f_equal. ring.
Qed.

(** X1: for [0 <= u < 2^64], [read_gb_word] reads back [u] from the bytes of
    [write_gb_word u], whatever follows them.  The rest of the stream is
    left unread. *)
Theorem gb_word_round_trip (u : Z) (rest : list Z) (Hu : (0 <= u < 2 ^ 64)%Z) :
  read_gb_word (mk_istream (write_gb_word u ++ rest) true)
  = Ok (u, mk_istream rest true).
Proof. exact (read_write_gb_word u rest Hu). Qed.





Lemma cont_byte_facts b : is_cont_byte b ->
  Z.land b 255 = b /\ Z.land b 128 <> 0%Z.
Proof.
  intro Hb. unfold is_cont_byte in Hb.
  assert (H := byte_check_ok
    (fun b => negb (128 <=? b)%Z || ((Z.land b 255 =? b) && negb (Z.land b 128 =? 0))%Z)
    eq_refl b ltac:(lia)).
  cbv beta in H. replace (128 <=? b)%Z with true in H by (symmetry; apply Z.leb_le; lia).
  simpl in H. apply andb_true_iff in H as [H1 H2].
  apply Z.eqb_eq in H1. apply negb_true_iff, Z.eqb_neq in H2. auto.
Qed.

Lemma write_gb_word_loop_format f : forall u,
  (0 <= u < 2 ^ (7 * Z.of_nat f))%Z -> (1 <= f)%nat ->
  exists pre last, write_gb_word_loop f u = pre ++ [last]
    /\ (0 <= last < 128)%Z /\ Forall is_cont_byte pre /\ (List.length pre < f)%nat.
Proof.
  induction f as [|f IH]; intros u Hu Hf; [lia|].
  assert (Hv : (0 <= u mod 128 < 128)%Z) by (apply Z.mod_pos_bound; lia).
  destruct (low7_facts _ Hv) as (_ & _ & _ & _ & _ & _ & H7).
  assert (Hdiv : u = (128 * (u / 128) + u mod 128)%Z) by (apply Z.div_mod; lia).
  assert (Hq : (0 <= u / 128)%Z) by (apply Z.div_pos; lia).
  cbn [write_gb_word_loop]. rewrite land_127, shiftr_7.
  destruct (u / 128 =? 0)%Z eqn:Hz.
  - exists [], (u mod 128)%Z. repeat split; simpl; auto; lia.
  - apply Z.eqb_neq in Hz.
    destruct f as [|f]; [simpl in Hu; exfalso; apply Hz; apply Z.div_small; lia|].
    destruct (IH (u / 128)%Z) as (pre & last & Heq & Hl & Hpre & Hlen); [|lia|].
    + split; [exact Hq|]. rewrite Nat2Z.inj_succ, Z.mul_succ_r, Z.pow_add_r in Hu by lia.
      change (2 ^ 7)%Z with 128%Z in Hu. nia.
    + exists (Z.lor (u mod 128)%Z 128 :: pre), last. rewrite Heq.
      repeat split; auto; simpl; lia.
Qed.

(** X2: for [0 <= u < 2^64], [write_gb_word u] is at most ten bytes.  All
    bytes but the last have the continuation bit 0x80 set (they lie in
    [128, 256)); the last byte is below 128. *)
Theorem write_gb_word_format (u : Z) (Hu : (0 <= u < 2 ^ 64)%Z) :
  exists pre last, write_gb_word u = pre ++ [last]
    /\ (0 <= last < 128)%Z /\ Forall is_cont_byte pre /\ (List.length pre < 10)%nat.
Proof.
  apply write_gb_word_loop_format; [|lia].
  split; [lia|]. apply Z.lt_le_trans with (2 ^ 64)%Z; [lia|].
  apply Z.pow_le_mono_r; lia.
Qed.

Lemma read_gb_word_loop_S fuel res shift i :
  read_gb_word_loop (S fuel) res shift i =
  if in_good i then
    if (size_t_bits <=? shift)%Z then Throw "input number too large" else
    let '(c, i) := istream_get i in
    let ch := Z.land c 255 in
    let res := Z.lor res (Z.land (Z.shiftl (Z.land ch 127) shift) size_t_mask) in
    if (Z.land ch 128 =? 0)%Z then Ok (res, i)
    else read_gb_word_loop fuel res (shift + 7)%Z i
  else Ok (res, i).
Proof. reflexivity. Qed.

Lemma read_gb_word_loop_cont bs : forall k m res rest,
  Forall is_cont_byte bs -> (k + List.length bs <= 10)%nat ->
  (List.length bs <= m)%nat ->
  exists res', read_gb_word_loop (S m) res (7 * Z.of_nat k) (mk_istream (bs ++ rest) true)
    = read_gb_word_loop (S m - List.length bs) res' (7 * Z.of_nat (k + List.length bs))
        (mk_istream rest true).
Proof.
  induction bs as [|b bs IH]; intros k m res rest Hbs Hk Hm.
  - exists res. cbn [app List.length]. rewrite Nat.add_0_r. f_equal.
  - inversion Hbs as [|? ? Hb Hbs']; subst. simpl List.length in *.
    destruct (cont_byte_facts b Hb) as [H1 H2].
    destruct m as [|m]; [lia|].
    rewrite read_gb_word_loop_S. unfold istream_get; cbn [in_good in_rest app].
    replace (size_t_bits <=? 7 * Z.of_nat k)%Z with false
      by (symmetry; apply Z.leb_gt; unfold size_t_bits; lia).
    rewrite H1. destruct (Z.land b 128 =? 0)%Z eqn:Hc; [apply Z.eqb_eq in Hc; contradiction|].
    replace (7 * Z.of_nat k + 7)%Z with (7 * Z.of_nat (S k))%Z by lia.
    destruct (IH (S k) m (Z.lor res (Z.land (Z.shiftl (Z.land b 127) (7 * Z.of_nat k)) size_t_mask)) rest Hbs' ltac:(lia) ltac:(lia)) as [res' Heq].
    exists res'. rewrite Heq. replace (S (S m) - S (Datatypes.length bs))%nat with (S m - Datatypes.length bs)%nat by lia. rewrite Nat.add_succ_comm. reflexivity.
Qed.

(** X3: [read_gb_word] on ten bytes that all have the continuation bit set
    throws "input number too large", whatever follows.  A stream that ends
    after fewer than ten such bytes throws "unexpected end of input
    stream". *)
Theorem read_gb_word_unterminated (bs rest : list Z) :
  Forall is_cont_byte bs ->
  (List.length bs = 10%nat ->
     read_gb_word (mk_istream (bs ++ rest) true) = Throw "input number too large")
  /\ ((List.length bs < 10)%nat ->
     read_gb_word (mk_istream bs true) = Throw "unexpected end of input stream").
Proof.
  intros Hbs. split.
  - intro Hl. unfold read_gb_word.
    change (read_gb_word_loop 11 0 0) with (read_gb_word_loop 11 0 (7 * Z.of_nat 0)).
    destruct (read_gb_word_loop_cont bs 0 10 0 rest Hbs ltac:(lia) ltac:(lia)) as [res' ->].
    rewrite Hl. reflexivity.
  - intro Hl. unfold read_gb_word.
    rewrite <- (app_nil_r bs) at 1.
    change (read_gb_word_loop 11 0 0) with (read_gb_word_loop 11 0 (7 * Z.of_nat 0)).
    destruct (read_gb_word_loop_cont bs 0 10 0 [] Hbs ltac:(lia) ltac:(lia)) as [res' ->].
    replace (S 10 - List.length bs)%nat with (S (S (9 - List.length bs))) by lia.
    cbn [read_gb_word_loop]. unfold istream_get; cbn [in_good in_rest].
    replace (size_t_bits <=? 7 * Z.of_nat (0 + List.length bs))%Z with false
      by (symmetry; apply Z.leb_gt; unfold size_t_bits; lia).
    reflexivity.
Qed.

Lemma land_byte b : (0 <= b < 256)%Z -> Z.land b 255 = b.
Proof.
  intro Hb. change 255%Z with (Z.ones 8). rewrite Z.land_ones by lia.
  apply Z.mod_small. exact Hb.
Qed.



Lemma read_write_gb_string_loop s : forall buf rest fuel,
  Forall is_byte s -> (List.length s < fuel)%nat ->
  read_gb_string_loop fuel buf (mk_istream (write_gb_string s ++ rest) true)
  = Some (buf ++ s, mk_istream rest true).
Proof.
  unfold write_gb_string.
  induction s as [|c s IH]; intros buf rest fuel Hs Hf.
  - destruct fuel as [|fuel]; [simpl in Hf; lia|].
    simpl. rewrite app_nil_r. reflexivity.
  - inversion Hs as [|? ? Hc Hs']; subst. simpl List.length in Hf.
    destruct fuel as [|fuel]; [lia|].
    cbn [flat_map]. rewrite <- !app_assoc.
    destruct ((c =? 0)%Z || (c =? 92)%Z) eqn:Hsp.
    + cbn [app read_gb_string_loop]. unfold istream_get; cbn [in_good in_rest].
      change (Z.land 92 255) with 92%Z. cbn -[read_gb_string_loop].
      rewrite land_byte by exact Hc. change (0%Z :: rest) with ([0%Z] ++ rest). rewrite app_assoc.
      rewrite IH by (auto; lia). rewrite <- app_assoc. reflexivity.
    + apply orb_false_iff in Hsp as [H0 H92].
      cbn [app read_gb_string_loop]. unfold istream_get; cbn [in_good in_rest].
      rewrite land_byte by exact Hc. rewrite H0, H92. cbn -[read_gb_string_loop]. change (0%Z :: rest) with ([0%Z] ++ rest). rewrite app_assoc.
      rewrite IH by (auto; lia). rewrite <- app_assoc. reflexivity.
Qed.

Lemma read_write_gb_string (s rest : list Z) (fuel : nat)
    (Hs : Forall is_byte s) (Hf : (List.length s < fuel)%nat) :
  read_gb_string fuel (mk_istream (write_gb_string s ++ rest) true)
  = Some (s, mk_istream rest true).
Proof.
  unfold read_gb_string. rewrite read_write_gb_string_loop by assumption.
  reflexivity.
Qed.

(** X4: for a string of byte values [0..255] and fuel above its length,
    [read_gb_string] reads back exactly [s] from [write_gb_string s],
    whatever follows.  This includes the escaped bytes 0 and backslash.
    The rest of the stream is left unread. *)
Theorem gb_string_round_trip (s rest : list Z) (fuel : nat)
    (Hs : Forall is_byte s) (Hf : (List.length s < fuel)%nat) :
  read_gb_string fuel (mk_istream (write_gb_string s ++ rest) true)
  = Some (s, mk_istream rest true).
Proof. exact (read_write_gb_string s rest fuel Hs Hf). Qed.


Lemma read_gb_string_loop_no_zero fuel : forall buf bs good,
  Forall (fun b => (0 < b < 256)%Z) bs ->
  read_gb_string_loop fuel buf (mk_istream bs good) = None.
Proof.
  induction fuel as [|fuel IH]; intros buf bs good Hbs; [reflexivity|].
  cbn [read_gb_string_loop]. unfold istream_get; cbn [in_good in_rest].
  destruct good.
  - destruct bs as [|b bs].
    + cbn -[read_gb_string_loop]. apply IH. constructor.
    + inversion Hbs as [|? ? Hb Hbs']; subst.
      rewrite land_byte by lia.
      replace (b =? 0)%Z with false by (symmetry; apply Z.eqb_neq; lia).
      destruct (b =? 92)%Z.
      * destruct bs as [|b' bs]; cbn -[read_gb_string_loop]; apply IH;
          [constructor|inversion Hbs'; assumption].
      * apply IH. exact Hbs'.
  - cbn -[read_gb_string_loop]. apply IH. exact Hbs.
Qed.

(** X5: [read_gb_string] never returns on a stream without a 0 byte: at
    the end of the stream [get] yields EOF, which is not 0 either.  The
    loop runs out of every fuel bound. *)
Theorem read_gb_string_unterminated (bs : list Z) (good : bool)
    (Hbs : Forall (fun b => (0 < b < 256)%Z) bs) :
  forall fuel, read_gb_string fuel (mk_istream bs good) = None.
Proof. intro fuel. apply read_gb_string_loop_no_zero. exact Hbs. Qed.


Lemma resize_grow {A} (l : list A) n d :
  (List.length l <= n)%nat -> resize l n d = l ++ repeat d (n - List.length l).
Proof. intro H. unfold resize. rewrite firstn_all2 by exact H. reflexivity. Qed.

Lemma resize_length {A} (l : list A) n d :
  (List.length l <= n)%nat -> List.length (resize l n d) = n.
Proof. intro H. rewrite resize_grow, length_app, repeat_length by exact H. lia. Qed.

Lemma nth_resize {A} (l : list A) n d k :
  (List.length l <= n)%nat -> nth k (resize l n d) d = nth k l d.
Proof.
  intro H. rewrite resize_grow by exact H.
  destruct (Nat.lt_ge_cases k (List.length l)).
  - apply app_nth1; assumption.
  - rewrite app_nth2 by assumption. rewrite nth_overflow with (l := l) by assumption.
    destruct (Nat.lt_ge_cases (k - List.length l) (n - List.length l)).
    + apply nth_repeat_lt; assumption.
    + apply nth_overflow. rewrite repeat_length. assumption.
Qed.

Lemma set_nth_length {A} (l : list A) k x : List.length (set_nth l k x) = List.length l.
Proof. revert k; induction l as [|y l IH]; intros [|k]; simpl; auto. Qed.

Lemma nth_set_nth_eq {A} (l : list A) k x d :
  (k < List.length l)%nat -> nth k (set_nth l k x) d = x.
Proof.
  revert k; induction l as [|y l IH]; intros [|k] Hk; simpl in *; try lia; auto.
  all: apply IH; lia.
Qed.

Lemma nth_set_nth_neq {A} (l : list A) k x d n :
  n <> k -> nth n (set_nth l k x) d = nth n l d.
Proof.
  revert k n; induction l as [|y l IH]; intros [|k] [|n] Hne; simpl; auto; try lia.
  all: apply IH; lia.
Qed.

Section StringRefs.
Variable string_no : list Z -> nat.

Lemma write_string_ref_nth c s :
  let id := string_no s in
  let sm := string_map c in
  let sm' := if Nat.leb (List.length sm) id then resize sm (id + 1) false else sm in
  (forall k, nth k sm' false = nth k sm false) /\ (id < List.length sm')%nat.
Proof.
  intros id sm sm'. unfold sm'.
  destruct (Nat.leb (List.length sm) id) eqn:Hl.
  - apply Nat.leb_le in Hl. split.
    + intro k. apply nth_resize. lia.
    + rewrite resize_length by lia. lia.
  - apply Nat.leb_gt in Hl. split; auto.
Qed.

Lemma string_ref_step (Q : list Z -> Prop) cw cr s o cw' rest fuel
    (Hagree : str_tables_agree string_no Q (string_map cw) (string_rev_map cr))
    (HQ : Q s)
    (Hinj : forall s', Q s' -> string_no s' = string_no s -> s' = s)
    (Hs : Forall is_byte s) (Hf : (List.length s < fuel)%nat)
    (Hid : (Z.of_nat (string_no s) < 2 ^ 64)%Z)
    (Hw : write_string_ref string_no cw s = (o, cw')) :
  exists rm', read_string_ref fuel cr (mk_istream (o ++ rest) true)
    = Ok (s, set_string_rev_map cr rm', mk_istream rest true)
    /\ str_tables_agree string_no Q (string_map cw') rm'
    /\ cw' = set_string_map cw (string_map cw').
Proof.
  destruct (write_string_ref_nth cw s) as [Hsm Hlen].
  unfold write_string_ref in Hw. revert Hw Hsm Hlen.
  set (id := string_no s).
  set (sm' := if Nat.leb (List.length (string_map cw)) id
              then resize (string_map cw) (id + 1) false else string_map cw).
  intros Hw Hsm Hlen.
  set (rm := string_rev_map cr).
  set (rm' := if Nat.leb (List.length rm) id then resize rm (1 + id * 2) (false, []) else rm).
  assert (Hrm : forall k, nth k rm' (false, []) = nth k rm (false, [])).
  { intro k. unfold rm'. destruct (Nat.leb (List.length rm) id) eqn:Hl; [|reflexivity].
    apply Nat.leb_le in Hl. apply nth_resize. lia. }
  assert (Hrlen : (id < List.length rm')%nat).
  { unfold rm'. destruct (Nat.leb (List.length rm) id) eqn:Hl.
    - apply Nat.leb_le in Hl. rewrite resize_length by lia. lia.
    - apply Nat.leb_gt in Hl. exact Hl. }
  assert (Hid' : (0 <= Z.of_nat id < 2 ^ 64)%Z) by (unfold id; lia).
  destruct (Hagree id) as [Hmark Hval]. fold rm in Hmark, Hval.
  unfold read_string_ref.
  destruct (nth id sm' false) eqn:Hmk.
  - injection Hw as <- <-.
    rewrite read_write_gb_word by exact Hid'. rewrite Nat2Z.id.
    fold rm. fold rm'. rewrite Hrm.
    rewrite Hsm in Hmk. rewrite Hmark in Hmk. rewrite Hmk.
    destruct (Hval Hmk) as [Hno HQ'].
    rewrite (Hinj _ HQ' Hno).
    exists rm'. split; [reflexivity|]. split; [|reflexivity].
    intro k. cbn [string_map set_string_map]. rewrite Hsm, Hrm. apply Hagree.
  - injection Hw as <- <-.
    rewrite <- app_assoc, read_write_gb_word by exact Hid'. rewrite Nat2Z.id.
    fold rm. fold rm'. rewrite Hrm.
    rewrite Hsm in Hmk. rewrite Hmark in Hmk. rewrite Hmk.
    rewrite read_write_gb_string by assumption.
    exists (set_nth rm' id (true, s)). split; [reflexivity|]. split; [|reflexivity].
    intro k. cbn [string_map set_string_map].
    destruct (Nat.eq_dec k id) as [->|Hne].
    + rewrite !nth_set_nth_eq by assumption. simpl. auto.
    + rewrite !nth_set_nth_neq by assumption. rewrite Hsm, Hrm. apply Hagree.
Qed.

Lemma string_refs_steps (Q : list Z -> Prop) ss : forall cw cr o cw' rest fuel,
    str_tables_agree string_no Q (string_map cw) (string_rev_map cr) ->
    Forall Q ss ->
    (forall a b, Q a -> Q b -> string_no a = string_no b -> a = b) ->
    Forall (Forall is_byte) ss -> Forall (fun s => List.length s < fuel)%nat ss ->
    Forall (fun s => Z.of_nat (string_no s) < 2 ^ 64)%Z ss ->
    write_string_refs string_no cw ss = (o, cw') ->
    exists cr', read_string_refs fuel (List.length ss) cr (mk_istream (o ++ rest) true)
      = Ok (ss, cr', mk_istream rest true).
Proof.
  induction ss as [|s ss IH]; intros cw cr o cw' rest fuel Hag HQ Hinj Hb Hf Hid Hw.
  - injection Hw as <- <-. exists cr. reflexivity.
  - assert (HQs : Q s) by (inversion HQ; assumption).
    inversion HQ; inversion Hb; inversion Hf; inversion Hid; subst.
    cbn [write_string_refs] in Hw.
    destruct (write_string_ref string_no cw s) as [o1 cw1] eqn:Hw1.
    destruct (write_string_refs string_no cw1 ss) as [o2 cw2] eqn:Hw2.
    injection Hw as <- <-.
    destruct (string_ref_step Q cw cr s o1 cw1 (o2 ++ rest) fuel Hag ltac:(assumption)
                (fun s' (HQ' : Q s') (Hno : string_no s' = string_no s) => Hinj s' s HQ' HQs Hno)
                ltac:(assumption) ltac:(assumption) ltac:(assumption) Hw1)
      as [rm' [Hr [Hag' _]]].
    destruct (IH cw1 (set_string_rev_map cr rm') o2 cw2 rest fuel Hag' ltac:(assumption)
                Hinj ltac:(assumption) ltac:(assumption) ltac:(assumption) Hw2)
      as [cr' Hr'].
    exists cr'. cbn [List.length read_string_refs]. rewrite <- app_assoc, Hr, Hr'.
    reflexivity.
Qed.

(** X7: a sequence of [write_string_ref] calls from an empty container is
    read back by as many [read_string_ref] calls from an empty container,
    leaving the rest of the stream.  This holds when [string_no] is
    injective on the strings, every string is a list of bytes shorter than
    the fuel, and every string number is below 2^64.  Strings written
    again as a bare id are found in [string_rev_map]. *)
Theorem string_ref_round_trip (ss : list (list Z)) (rest : list Z) (fuel : nat)
    (Hinj : forall a b, In a ss -> In b ss -> string_no a = string_no b -> a = b)
    (Hbytes : Forall (Forall is_byte) ss)
    (Hfuel : Forall (fun s => List.length s < fuel)%nat ss)
    (Hid : Forall (fun s => Z.of_nat (string_no s) < 2 ^ 64)%Z ss) :
  exists c', read_string_refs fuel (List.length ss) empty_container
               (mk_istream (fst (write_string_refs string_no empty_container ss) ++ rest) true)
             = Ok (ss, c', mk_istream rest true).
Proof.
  destruct (write_string_refs string_no empty_container ss) as [o cw'] eqn:Hw.
  apply (string_refs_steps (fun s => In s ss) ss empty_container empty_container o cw');
    try assumption.
  - intro id. simpl. destruct id; split; try reflexivity; discriminate.
  - apply Forall_forall. auto.
Qed.

(** X6: the first [write_string_ref] of a string not yet in [string_map]
    writes its number followed by the string itself, and marks the number.
    Writing the same string again then writes its number only, and leaves
    the container as it is. *)
Theorem write_string_ref_first_then_id (c : ireps_container) (s : list Z)
    (Hnew : nth (string_no s) (string_map c) false = false) :
  exists c1,
    write_string_ref string_no c s
      = (write_gb_word (Z.of_nat (string_no s)) ++ write_gb_string s, c1)
    /\ nth (string_no s) (string_map c1) false = true
    /\ write_string_ref string_no c1 s = (write_gb_word (Z.of_nat (string_no s)), c1).
Proof.
  destruct (write_string_ref_nth c s) as [Hsm Hlen].
  revert Hsm Hlen. unfold write_string_ref.
  set (sm' := if Nat.leb (List.length (string_map c)) (string_no s)
              then resize (string_map c) (string_no s + 1) false else string_map c).
  intros Hsm Hlen. rewrite Hsm, Hnew.
  eexists. split; [reflexivity|].
  cbn [string_map set_string_map]. rewrite nth_set_nth_eq by exact Hlen.
  split; [reflexivity|].
  replace (Nat.leb (List.length (set_nth sm' (string_no s) true)) (string_no s)) with false
    by (symmetry; apply Nat.leb_gt; rewrite set_nth_length; exact Hlen).
  rewrite nth_set_nth_eq by exact Hlen. reflexivity.
Qed.

End StringRefs.


(** Structure of [irep_subs], [irep_strings], [irep_size]. *)
Lemma irep_subs_self x : In x (irep_subs x).
Proof. destruct x; left; reflexivity. Qed.

Lemma irep_subs_sub id sub named y z :
  In y sub -> In z (irep_subs y) -> In z (irep_subs (mk_irept id sub named)).
Proof.
  intros Hy Hz. right. apply in_or_app. left. apply in_flat_map. eauto.
Qed.

Lemma irep_subs_named id sub named k y z :
  In (k, y) named -> In z (irep_subs y) -> In z (irep_subs (mk_irept id sub named)).
Proof.
  intros Hy Hz. right. apply in_or_app. right. apply in_flat_map. exists (k, y). auto.
Qed.

Lemma irep_subs_trans x : forall y z, In y (irep_subs x) -> In z (irep_subs y) -> In z (irep_subs x).
Proof.
  induction x as [id sub named IHs IHn] using irept_ind'.
  intros y z Hy Hz. destruct Hy as [<-|Hy]; [exact Hz|].
  apply in_app_or in Hy as [Hy|Hy]; apply in_flat_map in Hy as [c [Hc Hy]].
  - rewrite Forall_forall in IHs. eapply irep_subs_sub; [exact Hc|]. eapply IHs; eauto.
  - destruct c as [k c]. rewrite Forall_forall in IHn.
    eapply irep_subs_named; [exact Hc|]. eapply (IHn (k, c)); eauto.
Qed.

Lemma irep_strings_subs x : forall y s, In y (irep_subs x) -> In s (irep_strings y) ->
  In s (irep_strings x).
Proof.
  induction x as [id sub named IHs IHn] using irept_ind'.
  intros y s Hy Hs. destruct Hy as [<-|Hy]; [exact Hs|].
  rewrite Forall_forall in IHs, IHn.
  apply in_app_or in Hy as [Hy|Hy]; apply in_flat_map in Hy as [c [Hc Hy]].
  - right. apply in_or_app. left. apply in_flat_map. exists c. split; [exact Hc|].
    eapply IHs; eauto.
  - destruct c as [k c]. right. apply in_or_app. right. apply in_flat_map.
    exists (k, c). split; [exact Hc|]. right. eapply (IHn (k, c)); eauto.
Qed.

Lemma irep_wf_subs sn x : forall y, In y (irep_subs x) -> irep_wf sn x = true -> irep_wf sn y = true.
Proof.
  induction x as [id sub named IHs IHn] using irept_ind'.
  intros y Hy Hwf. destruct Hy as [<-|Hy]; [exact Hwf|].
  rewrite Forall_forall in IHs, IHn. cbn [irep_wf] in Hwf.
  apply andb_prop in Hwf as [Hwf Hn]. apply andb_prop in Hwf as [_ Hs].
  rewrite forallb_forall in Hs, Hn.
  apply in_app_or in Hy as [Hy|Hy]; apply in_flat_map in Hy as [c [Hc Hy]].
  - eapply IHs; eauto.
  - destruct c as [k c]. apply (IHn (k, c) Hc y Hy). exact (Hn (k, c) Hc).
Qed.

Lemma list_sum_map_le {A} (f : A -> nat) l a : In a l -> f a <= list_sum (map f l).
Proof.
  induction l as [|b l IH]; intros H; [destruct H|].
  destruct H as [<-|H]; simpl; [lia|]. specialize (IH H). lia.
Qed.

Lemma list_sum_map_cons {A} (f : A -> nat) a l :
  list_sum (map f (a :: l)) = f a + list_sum (map f l).
Proof. reflexivity. Qed.

Lemma irep_size_sub id sub named y :
  In y sub -> irep_size y < irep_size (mk_irept id sub named).
Proof. intro H. cbn [irep_size]. pose proof (list_sum_map_le irep_size sub y H). lia. Qed.

Lemma irep_size_named id sub named k y :
  In (k, y) named -> irep_size y < irep_size (mk_irept id sub named).
Proof.
  intro H. cbn [irep_size].
  pose proof (list_sum_map_le (fun '(_, y) => irep_size y) named (k, y) H). simpl in H0. lia.
Qed.

Lemma irep_fuel_ge x : 3 <= irep_fuel x.
Proof. destruct x; simpl; lia. Qed.

(** Association list of [ireps_on_write]. *)
Lemma assoc_nat_in {A} k (l : list (nat * A)) v : assoc_nat k l = Some v -> In (k, v) l.
Proof.
  induction l as [|[k' v'] l IH]; simpl; [discriminate|].
  destruct (Nat.eqb k k') eqn:E.
  - apply Nat.eqb_eq in E. intros [= <-]. left. subst. reflexivity.
  - intros H. right. auto.
Qed.

Lemma assoc_nat_none {A} k (l : list (nat * A)) : assoc_nat k l = None -> ~ In k (map fst l).
Proof.
  induction l as [|[k' v'] l IH]; simpl; [auto|].
  destruct (Nat.eqb k k') eqn:E; [discriminate|].
  apply Nat.eqb_neq in E. intros H [H'|H']; [congruence|]. exact (IH H H').
Qed.

(** [named_sub_emplace] of a key above all present appends it. *)
Lemma named_sub_emplace_last sn k v acc :
  (forall k' v', In (k', v') acc -> sn k' < sn k) ->
  named_sub_emplace sn k v acc = acc ++ [(k, v)].
Proof.
  induction acc as [|[k' v'] acc IH]; intro H; [reflexivity|].
  cbn [named_sub_emplace app].
  assert (Hlt : sn k' < sn k) by (apply (H k' v'); left; reflexivity).
  replace (Nat.ltb (sn k) (sn k')) with false by (symmetry; apply Nat.ltb_ge; lia).
  replace (Nat.eqb (sn k) (sn k')) with false by (symmetry; apply Nat.eqb_neq; lia).
  rewrite IH; [reflexivity|]. intros k'' v'' Hin. apply (H k'' v''). right. exact Hin.
Qed.

Lemma keys_increasing_cons sn k v l :
  keys_increasing sn ((k, v) :: l)
  = forallb (fun '(k', _) => Nat.ltb (sn k) (sn k')) l && keys_increasing sn l.
Proof. reflexivity. Qed.

(** One round of each reading loop. *)
Lemma read_sub_loop_S sn n acc c s :
  read_sub_loop sn (S n) acc c (mk_istream (83%Z :: s) true)
  = match reference_convert_in sn n c (mk_istream s true) with
    | Throw m => Throw m
    | OutOfFuel => OutOfFuel
    | Ok (x, c, i) => read_sub_loop sn n (acc ++ [x]) c i
    end.
Proof. reflexivity. Qed.

Lemma read_sub_loop_stop sn n acc c b s :
  b <> 83%Z ->
  read_sub_loop sn (S n) acc c (mk_istream (b :: s) true) = Ok (acc, c, mk_istream (b :: s) true).
Proof. intro H. cbn. apply Z.eqb_neq in H. rewrite H. reflexivity. Qed.

Lemma read_named_loop_S sn tag n acc c s :
  read_named_loop sn tag (S n) acc c (mk_istream (tag :: s) true)
  = match read_string_ref n c (mk_istream s true) with
    | Throw m => Throw m
    | OutOfFuel => OutOfFuel
    | Ok (k, c, i) =>
        match reference_convert_in sn n c i with
        | Throw m => Throw m
        | OutOfFuel => OutOfFuel
        | Ok (x, c, i) => read_named_loop sn tag n (named_sub_emplace sn k x acc) c i
        end
    end.
Proof. cbn [read_named_loop istream_peek istream_get in_good in_rest]. rewrite Z.eqb_refl. reflexivity. Qed.

Lemma read_named_loop_stop sn tag n acc c b s :
  b <> tag ->
  read_named_loop sn tag (S n) acc c (mk_istream (b :: s) true)
  = Ok (acc, c, mk_istream (b :: s) true).
Proof. intro H. cbn. apply Z.eqb_neq in H. rewrite H. reflexivity. Qed.

Lemma write_irep_eq sn inum c id sub named :
  write_irep sn inum c (mk_irept id sub named)
  = let '(o_id, c) := write_string_ref sn c id in
    let '(o_sub, c) := write_subs (reference_convert_with inum (write_irep sn inum)) sub c in
    let '(o_named, c) := write_named_subs sn (reference_convert_with inum (write_irep sn inum)) named c in
    (o_id ++ o_sub ++ o_named ++ [0%Z], c).
Proof. reflexivity. Qed.

Section RoundTrip.
Variable sn : list Z -> nat.
Variable inum : irept -> nat.
Variable root : irept.
Hypothesis Hinj_i : forall a b, In a (irep_subs root) -> In b (irep_subs root) ->
  inum a = inum b -> a = b.
Hypothesis Hinj_s : forall a b, In a (irep_strings root) -> In b (irep_strings root) ->
  sn a = sn b -> a = b.
Hypothesis Hbytes : Forall (Forall is_byte) (irep_strings root).
Hypothesis Hsno : Forall (fun s => Z.of_nat (sn s) < 2 ^ 64)%Z (irep_strings root).
Hypothesis Hwf : irep_wf sn root = true.
Hypothesis Hcount : (Z.of_nat (List.length (irep_subs root)) < 2 ^ 64)%Z.

Local Abbreviation R := (fun y => In y (irep_subs root)).
Local Abbreviation Q := (fun s => In s (irep_strings root)).
Local Abbreviation Inv := (irep_tables_agree inum root).
Local Abbreviation SA := (str_tables_agree sn Q).
Local Abbreviation RC := (reference_convert_with inum (write_irep sn inum)).

Local Abbreviation ref_ok := (irep_ref_ok sn inum root).
Local Abbreviation body_ok := (irep_body_ok sn inum root).

Lemma ow_length_bound (ow : list (nat * nat)) :
  NoDup (map fst ow) -> (forall e, In e ow -> exists y, R y /\ fst e = inum y) ->
  (Z.of_nat (List.length ow) < 2 ^ 64)%Z.
Proof.
  intros Hnd Hin.
  assert (List.length (map fst ow) <= List.length (map inum (irep_subs root))).
  { apply NoDup_incl_length; [exact Hnd|].
    intros h Hh. apply in_map_iff in Hh as [e [<- He]].
    destruct (Hin e He) as [y [Hy ->]]. apply in_map. exact Hy. }
  rewrite !length_map in H. lia.
Qed.

Lemma ref_of_body y : body_ok y -> ref_ok y.
Proof.
  intros Hbody cw cr anc fuel rest o cw' HR HI HS Hanc Hf Hw.
  pose proof HI as (I1 & I2 & I6 & I3 & I4 & I5).
  pose proof (ow_length_bound _ I2 I6) as Hlen.
  destruct fuel as [|fuel]; [pose proof (irep_fuel_ge y); lia|].
  unfold reference_convert_with in Hw.
  destruct (assoc_nat (inum y) (ireps_on_write cw)) as [idx|] eqn:Ha.
  - injection Hw as <- <-.
    apply assoc_nat_in, In_nth with (d := (0, 0)) in Ha as [p [Hp Hnth]].
    pose proof (I1 p Hp) as Hsnd. rewrite Hnth in Hsnd. simpl in Hsnd. subst p.
    destruct (I3 idx Hp) as [[a Ha]|[z (Hz & HRz & Hnz)]].
    + destruct (I5 idx a Ha) as (_ & Hna & _ & HRa).
      rewrite Hnth in Hna. simpl in Hna.
      assert (a = y) by (apply Hinj_i; auto). subst a.
      specialize (Hanc idx y Ha). lia.
    + rewrite Hnth in Hnz. simpl in Hnz.
      assert (z = y) by (apply Hinj_i; auto). subst z.
      assert (Hlt : idx < List.length (ireps_on_read cr)).
      { destruct (Nat.lt_ge_cases idx (List.length (ireps_on_read cr))) as [H|H]; [exact H|].
        rewrite nth_overflow in Hz by exact H. discriminate. }
      exists cr. split; [|split; [exact HI|split; [exact HS|exists []; symmetry; apply app_nil_r]]].
      cbn [reference_convert_in].
      rewrite read_write_gb_word by lia. rewrite Nat2Z.id.
      replace (Nat.leb (List.length (ireps_on_read cr)) idx) with false
        by (symmetry; apply Nat.leb_gt; exact Hlt).
      rewrite Hz. reflexivity.
  - set (idx := List.length (ireps_on_write cw)) in *.
    set (cw1 := set_ireps_on_write cw (ireps_on_write cw ++ [(inum y, idx)])) in *.
    destruct (write_irep sn inum cw1 y) as [o1 cw2] eqn:Hw1.
    injection Hw as <- <-.
    assert (HI1 : Inv (ireps_on_write cw1) (ireps_on_read cr) ((idx, y) :: anc)).
    { cbn [ireps_on_write cw1 set_ireps_on_write].
      refine (conj _ (conj _ (conj _ (conj _ (conj _ _))))).
      - intros j Hj. rewrite length_app in Hj. simpl in Hj.
        destruct (Nat.lt_ge_cases j idx).
        + rewrite app_nth1 by exact H. apply I1. exact H.
        + replace j with idx by lia. rewrite app_nth2 by lia. rewrite Nat.sub_diag. reflexivity.
      - rewrite map_app. apply NoDup_app; auto using NoDup_cons, NoDup_nil.
        + constructor; [intros []|constructor].
        + intros h Hh Hh'. destruct Hh' as [<-|[]]. exact (assoc_nat_none _ _ Ha Hh).
      - intros e He. apply in_app_or in He as [He|[<-|[]]]; [auto|]. exists y. auto.
      - intros j Hj. rewrite length_app in Hj. simpl in Hj.
        destruct (Nat.lt_ge_cases j idx).
        + destruct (I3 j H) as [[a Ha']|[z Hz]].
          * left. exists a. right. exact Ha'.
          * right. exists z. rewrite app_nth1 by exact H. exact Hz.
        + left. exists y. left. f_equal. lia.
      - intros j Hj. rewrite length_app in Hj. simpl in Hj. apply I4. lia.
      - intros j a [[= <- <-]|Ha'].
        + rewrite length_app, app_nth2 by lia. rewrite Nat.sub_diag. simpl.
          split; [lia|]. split; [reflexivity|]. split; [apply I4; lia|exact HR].
        + destruct (I5 j a Ha') as (Hj & Hn & Hr & HRa).
          rewrite length_app, app_nth1 by exact Hj. simpl. split; [lia|auto]. }
    destruct (Hbody cw1 cr ((idx, y) :: anc) fuel rest o1 cw2 HR HI1 HS) as
      [cr1 (Hr & HI2 & HS2 & [suf Hsuf])]; [| lia | exact Hw1 |].
    { intros j a [[= <- <-]|Ha']; [lia|]. specialize (Hanc j a Ha'). lia. }
    cbn [ireps_on_write cw1 set_ireps_on_write] in Hsuf.
    pose proof HI2 as (J1 & J2 & J6 & J3 & J4 & J5).
    destruct (J5 idx y (or_introl eq_refl)) as (Hidx & Hnidx & Hfree & _).
    set (orr1 := if Nat.leb (List.length (ireps_on_read cr1)) idx
                 then resize (ireps_on_read cr1) (1 + idx * 2) (false, nil_irep)
                 else ireps_on_read cr1).
    assert (Horr : forall k, nth k orr1 (false, nil_irep) = nth k (ireps_on_read cr1) (false, nil_irep)).
    { intro k. unfold orr1. destruct (Nat.leb _ idx) eqn:E; [|reflexivity].
      apply Nat.leb_le in E. apply nth_resize. lia. }
    assert (Hlt1 : idx < List.length orr1).
    { unfold orr1. destruct (Nat.leb _ idx) eqn:E.
      - apply Nat.leb_le in E. rewrite resize_length by lia. lia.
      - apply Nat.leb_gt in E. exact E. }
    exists (set_ireps_on_read
              (if Nat.leb (List.length (ireps_on_read cr1)) idx
               then set_ireps_on_read cr1 (resize (ireps_on_read cr1) (1 + idx * 2) (false, nil_irep))
               else cr1) (set_nth orr1 idx (true, y))).
    split; [|split; [|split]].
    + rewrite <- app_assoc. cbn [reference_convert_in].
      rewrite read_write_gb_word by (unfold idx; lia). rewrite Nat2Z.id.
      replace (Nat.leb (List.length (ireps_on_read cr)) idx
               || negb (fst (nth idx (ireps_on_read cr) (false, nil_irep)))) with true
        by (rewrite (I4 idx (le_n _)); symmetry; apply orb_true_r).
      rewrite Hr.
      replace (fst (nth idx (ireps_on_read (if Nat.leb (List.length (ireps_on_read cr1)) idx
               then set_ireps_on_read cr1 (resize (ireps_on_read cr1) (1 + idx * 2) (false, nil_irep))
               else cr1)) (false, nil_irep))) with false.
      * f_equal. f_equal. f_equal. f_equal. destruct (Nat.leb _ idx); reflexivity.
      * symmetry. fold orr1.
        replace (ireps_on_read (if Nat.leb (List.length (ireps_on_read cr1)) idx
               then set_ireps_on_read cr1 (resize (ireps_on_read cr1) (1 + idx * 2) (false, nil_irep))
               else cr1)) with orr1 by (unfold orr1; destruct (Nat.leb _ idx); reflexivity).
        rewrite Horr. exact Hfree.
    + cbn [ireps_on_read set_ireps_on_read].
      refine (conj _ (conj _ (conj _ (conj _ (conj _ _))))).
      * exact J1.
      * exact J2.
      * exact J6.
      * intros j Hj. destruct (Nat.eq_dec j idx) as [->|Hne].
        -- right. exists y. rewrite nth_set_nth_eq by exact Hlt1. split; [reflexivity|].
           split; [exact HR|]. rewrite Hnidx. reflexivity.
        -- rewrite nth_set_nth_neq by exact Hne. rewrite Horr.
           destruct (J3 j Hj) as [[a [[= Hja _]|Ha']]|Hr']; [congruence| |].
           ++ left. exists a. exact Ha'.
           ++ right. exact Hr'.
      * intros j Hj. rewrite nth_set_nth_neq by lia. rewrite Horr. apply J4. exact Hj.
      * intros j a Ha'. destruct (J5 j a (or_intror Ha')) as (Hj & Hn & Hr' & HRa).
        destruct (I5 j a Ha') as (Hj0 & _).
        rewrite nth_set_nth_neq by (unfold idx in *; lia). rewrite Horr. auto.
    + destruct (Nat.leb _ idx); exact HS2.
    + exists ((inum y, idx) :: suf). rewrite Hsuf, <- app_assoc. reflexivity.
Qed.

Lemma sub_loop_ok l : forall n acc cw cr anc o cw' b next,
  Forall ref_ok l -> Forall R l ->
  (forall y, In y l -> forall j a, In (j, a) anc -> irep_size y < irep_size a) ->
  Inv (ireps_on_write cw) (ireps_on_read cr) anc ->
  SA (string_map cw) (string_rev_map cr) ->
  1 + list_sum (map (fun y => 1 + irep_fuel y) l) <= n ->
  b <> 83%Z ->
  write_subs RC l cw = (o, cw') ->
  exists cr', read_sub_loop sn n acc cr (mk_istream (o ++ b :: next) true)
                = Ok (acc ++ l, cr', mk_istream (b :: next) true)
    /\ Inv (ireps_on_write cw') (ireps_on_read cr') anc
    /\ SA (string_map cw') (string_rev_map cr')
    /\ exists suf, ireps_on_write cw' = ireps_on_write cw ++ suf.
Proof.
  induction l as [|y l IH]; intros n acc cw cr anc o cw' b next Hrefs HRs Hsz HI HS Hn Hb Hw.
  - cbn [write_subs] in Hw. injection Hw as <- <-. destruct n as [|n]; [cbn in Hn; lia|].
    exists cr. rewrite app_nil_r. cbn [app]. rewrite read_sub_loop_stop by exact Hb.
    split; [reflexivity|]. split; [exact HI|]. split; [exact HS|]. exists []. symmetry. apply app_nil_r.
  - cbn [write_subs] in Hw.
    destruct (RC cw y) as [oy cw1] eqn:E1.
    destruct (write_subs RC l cw1) as [ol cw2] eqn:E2.
    injection Hw as <- <-.
    destruct n as [|n]; [cbn in Hn; lia|]. rewrite list_sum_map_cons in Hn. cbv beta iota in Hn.
    inversion Hrefs as [|? ? Hy Hrefs']; inversion HRs as [|? ? HRy HRs']; subst.
    destruct (Hy cw cr anc n (ol ++ b :: next) oy cw1 HRy HI HS) as [cr1 (Hr1 & HI1 & HS1 & [s1 Hs1])].
    + intros j a Ha. apply (Hsz y (or_introl eq_refl) j a Ha).
    + lia.
    + exact E1.
    + destruct (IH n (acc ++ [y]) cw1 cr1 anc ol cw2 b next Hrefs' HRs') as [cr2 (Hr2 & HI2 & HS2 & [s2 Hs2])];
        [intros y' Hy'; apply Hsz; right; exact Hy' | exact HI1 | exact HS1 | lia | exact Hb | exact E2 |].
      exists cr2. cbn [app]. rewrite <- ?app_assoc. rewrite read_sub_loop_S, Hr1, Hr2.
      rewrite <- app_assoc. split; [reflexivity|]. split; [exact HI2|]. split; [exact HS2|].
      exists (s1 ++ s2). rewrite Hs2, Hs1, app_assoc. reflexivity.
Qed.

Lemma named_loop_ok l : forall n acc cw cr anc o cw' b next,
  Forall (fun kv => ref_ok (snd kv)) l ->
  Forall (fun kv => R (snd kv) /\ Q (fst kv)) l ->
  (forall k y, In (k, y) l -> forall j a, In (j, a) anc -> irep_size y < irep_size a) ->
  Inv (ireps_on_write cw) (ireps_on_read cr) anc ->
  SA (string_map cw) (string_rev_map cr) ->
  1 + list_sum (map (fun '(k, y) => 2 + List.length k + irep_fuel y) l) <= n ->
  (forall k' v', In (k', v') acc -> forall k v, In (k, v) l -> sn k' < sn k) ->
  keys_increasing sn l = true ->
  b <> 78%Z ->
  write_named_subs sn RC l cw = (o, cw') ->
  exists cr', read_named_loop sn 78 n acc cr (mk_istream (o ++ b :: next) true)
                = Ok (acc ++ l, cr', mk_istream (b :: next) true)
    /\ Inv (ireps_on_write cw') (ireps_on_read cr') anc
    /\ SA (string_map cw') (string_rev_map cr')
    /\ exists suf, ireps_on_write cw' = ireps_on_write cw ++ suf.
Proof.
  induction l as [|[k y] l IH];
    intros n acc cw cr anc o cw' b next Hrefs HRs Hsz HI HS Hn Hacc Hinc Hb Hw.
  - cbn [write_named_subs] in Hw. injection Hw as <- <-. destruct n as [|n]; [cbn in Hn; lia|].
    exists cr. rewrite app_nil_r. cbn [app]. rewrite read_named_loop_stop by exact Hb.
    split; [reflexivity|]. split; [exact HI|]. split; [exact HS|]. exists []. symmetry. apply app_nil_r.
  - cbn [write_named_subs] in Hw.
    destruct (write_string_ref sn cw k) as [ok cw1] eqn:E1.
    destruct (RC cw1 y) as [oy cw2] eqn:E2.
    destruct (write_named_subs sn RC l cw2) as [ol cw3] eqn:E3.
    injection Hw as <- <-.
    destruct n as [|n]; [cbn in Hn; lia|]. rewrite list_sum_map_cons in Hn. cbv beta iota in Hn.
    inversion Hrefs as [|? ? Hy Hrefs']; inversion HRs as [|? ? [HRy HQk] HRs']; subst.
    cbn [fst snd] in Hy, HRy, HQk.
    rewrite keys_increasing_cons in Hinc. apply andb_prop in Hinc as [Hlt Hinc].
    rewrite forallb_forall in Hlt.
    destruct (string_ref_step sn Q cw cr k ok cw1 (oy ++ ol ++ b :: next) n HS HQk
                (fun s' (H : Q s') (H' : sn s' = sn k) => Hinj_s s' k H HQk H'))
      as [rm1 (Hr1 & HS1 & Hcw1)].
    { rewrite Forall_forall in Hbytes. apply Hbytes. exact HQk. }
    { lia. }
    { rewrite Forall_forall in Hsno. apply (Hsno k HQk). }
    { exact E1. }
    assert (HI1 : Inv (ireps_on_write cw1) (ireps_on_read (set_string_rev_map cr rm1)) anc)
      by (rewrite Hcw1; exact HI).
    destruct (Hy cw1 (set_string_rev_map cr rm1) anc n (ol ++ b :: next) oy cw2 HRy HI1 HS1)
      as [cr2 (Hr2 & HI2 & HS2 & [s2 Hs2])].
    { intros j a Ha. apply (Hsz k y (or_introl eq_refl) j a Ha). }
    { lia. }
    { exact E2. }
    destruct (IH n (acc ++ [(k, y)]) cw2 cr2 anc ol cw3 b next Hrefs' HRs')
      as [cr3 (Hr3 & HI3 & HS3 & [s3 Hs3])].
    { intros k' y' Hy'. apply (Hsz k' y'). right. exact Hy'. }
    { exact HI2. }
    { exact HS2. }
    { lia. }
    { intros k' v' Hin k0 v0 Hin0. apply in_app_or in Hin as [Hin|[[= <- <-]|[]]].
      - apply (Hacc k' v' Hin k0 v0). right. exact Hin0.
      - apply Nat.ltb_lt. exact (Hlt (k0, v0) Hin0). }
    { exact Hinc. }
    { exact Hb. }
    { exact E3. }
    exists cr3. cbn [app]. rewrite <- ?app_assoc. cbn [app]. rewrite <- ?app_assoc.
    rewrite read_named_loop_S, Hr1, Hr2.
    rewrite named_sub_emplace_last by (intros k' v' Hin; apply (Hacc k' v' Hin k y); left; reflexivity).
    rewrite Hr3, <- app_assoc. split; [reflexivity|]. split; [exact HI3|]. split; [exact HS3|].
    exists (s2 ++ s3). rewrite Hs3, Hs2, Hcw1, app_assoc. reflexivity.
Qed.

Lemma write_named_subs_head ref l c o c' :
  write_named_subs sn ref l c = (o, c') -> o = [] \/ exists t, o = 78%Z :: t.
Proof.
  destruct l as [|[k y] l]; cbn [write_named_subs].
  - intros [= <- _]. left. reflexivity.
  - destruct (write_string_ref sn c k) as [ok c1].
    destruct (ref c1 y) as [oy c2].
    destruct (write_named_subs sn ref l c2) as [ol c3].
    intros [= <- _]. right. eexists. reflexivity.
Qed.

Lemma body_all x : body_ok x.
Proof.
  induction x as [id sub named IHs IHn] using irept_ind'.
  intros cw cr anc fuel rest o cw' HR HI HS Hanc Hf Hw.
  rewrite write_irep_eq in Hw.
  destruct (write_string_ref sn cw id) as [o1 cw1] eqn:E1.
  destruct (write_subs RC sub cw1) as [o2 cw2] eqn:E2.
  destruct (write_named_subs sn RC named cw2) as [o3 cw3] eqn:E3.
  injection Hw as <- <-.
  destruct fuel as [|f]; [cbn [irep_fuel] in Hf; lia|].
  cbn [irep_fuel] in Hf.
  set (x := mk_irept id sub named) in *.
  assert (HQx : forall s, In s (irep_strings x) -> Q s)
    by (intros s Hs; exact (irep_strings_subs root x s HR Hs)).
  assert (HRsub : forall y, In y sub -> R y)
    by (intros y Hy; exact (irep_subs_trans root x y HR (irep_subs_sub id sub named y y Hy (irep_subs_self y)))).
  assert (HRnamed : forall k y, In (k, y) named -> R y)
    by (intros k y Hy; exact (irep_subs_trans root x y HR (irep_subs_named id sub named k y y Hy (irep_subs_self y)))).
  assert (HQid : Q id) by (apply HQx; left; reflexivity).
  assert (HQk : forall k y, In (k, y) named -> Q k).
  { intros k y Hy. apply HQx. right. apply in_or_app. right. apply in_flat_map.
    exists (k, y). split; [exact Hy|left; reflexivity]. }
  pose proof (irep_wf_subs sn root x HR Hwf) as Hwfx.
  cbn [irep_wf x] in Hwfx. apply andb_prop in Hwfx as [Hwfx _]. apply andb_prop in Hwfx as [Hinc _].
  destruct (string_ref_step sn Q cw cr id o1 cw1 (o2 ++ o3 ++ 0%Z :: rest) f HS HQid
              (fun s' (H : Q s') (H' : sn s' = sn id) => Hinj_s s' id H HQid H'))
    as [rm1 (Hr1 & HS1 & Hcw1)].
  { rewrite Forall_forall in Hbytes. apply Hbytes. exact HQid. }
  { lia. }
  { rewrite Forall_forall in Hsno. apply (Hsno id HQid). }
  { exact E1. }
  assert (HI1 : Inv (ireps_on_write cw1) (ireps_on_read (set_string_rev_map cr rm1)) anc)
    by (rewrite Hcw1; exact HI).
  assert (Hbn : exists b next, o3 ++ 0%Z :: rest = b :: next /\ b <> 83%Z /\ (b = 0%Z \/ b = 78%Z)).
  { destruct (write_named_subs_head _ _ _ _ _ E3) as [->|[t ->]].
    - exists 0%Z, rest. split; [reflexivity|]. split; [discriminate|left; reflexivity].
    - exists 78%Z, (t ++ 0%Z :: rest). split; [reflexivity|]. split; [discriminate|right; reflexivity]. }
  destruct Hbn as (b & next & Hbn & Hb83 & _).
  destruct (sub_loop_ok sub f [] cw1 (set_string_rev_map cr rm1) anc o2 cw2 b next)
    as [cr2 (Hr2 & HI2 & HS2 & [s2 Hs2])].
  { apply Forall_forall. intros y Hy. rewrite Forall_forall in IHs. apply ref_of_body, IHs, Hy. }
  { apply Forall_forall. exact HRsub. }
  { intros y Hy j a Ha. pose proof (irep_size_sub id sub named y Hy). specialize (Hanc j a Ha).
    fold x in H. lia. }
  { exact HI1. }
  { exact HS1. }
  { lia. }
  { exact Hb83. }
  { exact E2. }
  destruct (named_loop_ok named f [] cw2 cr2 anc o3 cw3 0%Z rest)
    as [cr3 (Hr3 & HI3 & HS3 & [s3 Hs3])].
  { apply Forall_forall. intros [k y] Hy. rewrite Forall_forall in IHn.
    apply ref_of_body. exact (IHn (k, y) Hy). }
  { apply Forall_forall. intros [k y] Hy. split; [exact (HRnamed k y Hy)|exact (HQk k y Hy)]. }
  { intros k y Hy j a Ha. pose proof (irep_size_named id sub named k y Hy). specialize (Hanc j a Ha).
    fold x in H. lia. }
  { exact HI2. }
  { exact HS2. }
  { lia. }
  { intros k' v' [] . }
  { exact Hinc. }
  { discriminate. }
  { exact E3. }
  assert (HC : read_named_loop sn 67 f ([] ++ named) cr3 (mk_istream (0%Z :: rest) true)
               = Ok ([] ++ named, cr3, mk_istream (0%Z :: rest) true)).
  { destruct f as [|f]; [lia|]. apply read_named_loop_stop. discriminate. }
  exists cr3. rewrite <- !app_assoc. cbn [app].
  cbn [read_irep]. rewrite Hr1. cbv beta iota.
  rewrite Hbn, Hr2. cbv beta iota. rewrite <- Hbn, Hr3. cbv beta iota. rewrite HC.
  split; [reflexivity|]. split; [exact HI3|]. split; [exact HS3|].
  exists (s2 ++ s3). rewrite Hs3, Hs2, Hcw1, app_assoc. reflexivity.
Qed.

Lemma irep_round_trip_core rest fuel (Hfuel : irep_fuel root <= fuel) :
  exists c', reference_convert_in sn fuel empty_container
               (mk_istream (fst (reference_convert_out sn inum empty_container root) ++ rest) true)
             = Ok (root, c', mk_istream rest true).
Proof.
  unfold reference_convert_out.
  destruct (RC empty_container root) as [o cw'] eqn:Hw. cbn [fst].
  destruct (ref_of_body root (body_all root) empty_container empty_container [] fuel rest o cw')
    as [cr' (Hr & _)].
  - apply irep_subs_self.
  - cbn. refine (conj _ (conj _ (conj _ (conj _ (conj _ _))))).
    + intros j Hj. cbn in Hj. lia.
    + constructor.
    + intros e [].
    + intros j Hj. cbn in Hj. lia.
    + intros j _. destruct j; reflexivity.
    + intros j a [].
  - intro id. cbn. destruct id; split; try reflexivity; discriminate.
  - intros j a [].
  - exact Hfuel.
  - exact Hw.
  - exists cr'. exact Hr.
Qed.

End RoundTrip.

(** X10: an irep written by [reference_convert] into an empty container is
    read back by [reference_convert] from an empty container, leaving the
    rest of the stream.  Conditions: [irep_number] is injective on the
    subterms; [string_no] is injective on the strings; strings are byte
    lists; string numbers and the number of subterms are below 2^64; the
    [named_sub] lists are sorted by [string_no]; and the fuel covers the
    irep.  Shared subterms are written once and read back from
    [ireps_on_read]. *)
Theorem irep_round_trip (string_no : list Z -> nat) (irep_number : irept -> nat)
    (root : irept) (rest : list Z) (fuel : nat)
    (Hinj_i : forall a b, In a (irep_subs root) -> In b (irep_subs root) ->
              irep_number a = irep_number b -> a = b)
    (Hinj_s : forall a b, In a (irep_strings root) -> In b (irep_strings root) ->
              string_no a = string_no b -> a = b)
    (Hbytes : Forall (Forall is_byte) (irep_strings root))
    (Hsno : Forall (fun s => Z.of_nat (string_no s) < 2 ^ 64)%Z (irep_strings root))
    (Hwf : irep_wf string_no root = true)
    (Hcount : (Z.of_nat (List.length (irep_subs root)) < 2 ^ 64)%Z)
    (Hfuel : irep_fuel root <= fuel) :
  exists c', reference_convert_in string_no fuel empty_container
               (mk_istream (fst (reference_convert_out string_no irep_number
                                   empty_container root) ++ rest) true)
             = Ok (root, c', mk_istream rest true).
Proof.
  exact (irep_round_trip_core string_no irep_number root Hinj_i Hinj_s Hbytes Hsno
           Hwf Hcount rest fuel Hfuel).
Qed.



Lemma write_string_ref_on_write sn c s :
  ireps_on_write (snd (write_string_ref sn c s)) = ireps_on_write c.
Proof. unfold write_string_ref. destruct (nth _ _ _); reflexivity. Qed.

Lemma assoc_nat_app_none {A} k (l l' : list (nat * A)) :
  assoc_nat k l = None -> assoc_nat k (l ++ l') = assoc_nat k l'.
Proof.
  induction l as [|[k' v'] l IH]; simpl; [auto|].
  destruct (Nat.eqb k k'); [discriminate|exact IH].
Qed.

Section WriteExtends.
Variable sn : list Z -> nat.
Variable inum : irept -> nat.


Lemma ref_out_extends x :
  (forall c, exists suf, ireps_on_write (snd (write_irep sn inum c x)) = ireps_on_write c ++ suf) ->
  forall c, exists suf,
    ireps_on_write (snd (reference_convert_with inum (write_irep sn inum) c x))
    = ireps_on_write c ++ suf.
Proof.
  intros Hx c. unfold reference_convert_with.
  destruct (assoc_nat _ _); [exists []; symmetry; apply app_nil_r|].
  match goal with |- context [write_irep sn inum ?c' x] =>
    destruct (Hx c') as [suf Hs]; destruct (write_irep sn inum c' x) as [o c2] eqn:E end.
  simpl in Hs |- *. rewrite Hs. exists ((inum x, List.length (ireps_on_write c)) :: suf).
  rewrite <- app_assoc. reflexivity.
Qed.

Lemma write_irep_extends x : forall c, exists suf,
  ireps_on_write (snd (write_irep sn inum c x)) = ireps_on_write c ++ suf.
Proof.
  induction x as [id sub named IHs IHn] using irept_ind'.
  intro c. rewrite write_irep_eq.
  pose proof (write_string_ref_on_write sn c id) as H1.
  destruct (write_string_ref sn c id) as [o1 c1]. simpl in H1.
  assert (Hs : forall l, Forall (fun y => forall c, exists suf,
      ireps_on_write (snd (write_irep sn inum c y)) = ireps_on_write c ++ suf) l ->
      forall c, exists suf, ireps_on_write (snd (write_subs
        (reference_convert_with inum (write_irep sn inum)) l c)) = ireps_on_write c ++ suf).
  { induction l as [|y l IH]; intros Hl c0; simpl; [exists []; symmetry; apply app_nil_r|].
    inversion Hl as [|? ? Hy Hl']; subst.
    destruct (ref_out_extends y Hy c0) as [s1 E1].
    destruct (reference_convert_with inum (write_irep sn inum) c0 y) as [oy cy]. simpl in E1.
    destruct (IH Hl' cy) as [s2 E2].
    destruct (write_subs _ l cy) as [ol cl]. simpl in E2 |- *.
    exists (s1 ++ s2). rewrite E2, E1, app_assoc. reflexivity. }
  assert (Hn : forall l, Forall (fun kv => forall c, exists suf,
      ireps_on_write (snd (write_irep sn inum c (snd kv))) = ireps_on_write c ++ suf) l ->
      forall c, exists suf, ireps_on_write (snd (write_named_subs sn
        (reference_convert_with inum (write_irep sn inum)) l c)) = ireps_on_write c ++ suf).
  { induction l as [|[k y] l IH]; intros Hl c0; simpl; [exists []; symmetry; apply app_nil_r|].
    inversion Hl as [|? ? Hy Hl']; subst. simpl in Hy.
    pose proof (write_string_ref_on_write sn c0 k) as Ek.
    destruct (write_string_ref sn c0 k) as [ok ck]. simpl in Ek.
    destruct (ref_out_extends y Hy ck) as [s1 E1].
    destruct (reference_convert_with inum (write_irep sn inum) ck y) as [oy cy]. simpl in E1.
    destruct (IH Hl' cy) as [s2 E2].
    destruct (write_named_subs _ _ l cy) as [ol cl]. simpl in E2 |- *.
    exists (s1 ++ s2). rewrite E2, E1, Ek, app_assoc. reflexivity. }
  destruct (Hs sub IHs c1) as [s2 E2].
  destruct (write_subs _ sub c1) as [o2 c2]. simpl in E2.
  destruct (Hn named IHn c2) as [s3 E3].
  destruct (write_named_subs _ _ named c2) as [o3 c3]. simpl in E3 |- *.
  exists (s2 ++ s3). rewrite E3, E2, H1, app_assoc. reflexivity.
Qed.

End WriteExtends.

(** X8: after [reference_convert] has written an irep, [ireps_on_write]
    maps the irep's hash number to some index [idx], and the output starts
    with [idx].  Writing the same irep again outputs [idx] only, and
    changes no table. *)
Theorem reference_convert_out_shares (string_no : list Z -> nat) (irep_number : irept -> nat)
    (c : ireps_container) (x : irept) :
  let '(o, c1) := reference_convert_out string_no irep_number c x in
  exists idx, assoc_nat (irep_number x) (ireps_on_write c1) = Some idx
    /\ (exists body, o = write_gb_word (Z.of_nat idx) ++ body)
    /\ reference_convert_out string_no irep_number c1 x = (write_gb_word (Z.of_nat idx), c1).
Proof.
  unfold reference_convert_out, reference_convert_with.
  destruct (assoc_nat (irep_number x) (ireps_on_write c)) as [idx|] eqn:Ha.
  - exists idx. rewrite Ha. split; [reflexivity|]. split; [exists []; symmetry; apply app_nil_r|].
    reflexivity.
  - set (c' := set_ireps_on_write c (ireps_on_write c ++ [(irep_number x, List.length (ireps_on_write c))])).
    destruct (write_irep_extends string_no irep_number x c') as [suf Hs].
    destruct (write_irep string_no irep_number c' x) as [o c2] eqn:E. simpl in Hs.
    exists (List.length (ireps_on_write c)).
    assert (Ha2 : assoc_nat (irep_number x) (ireps_on_write c2) = Some (List.length (ireps_on_write c))).
    { rewrite Hs. cbn [c' ireps_on_write set_ireps_on_write]. rewrite <- app_assoc.
      rewrite assoc_nat_app_none by exact Ha. simpl. rewrite Nat.eqb_refl. reflexivity. }
    split; [exact Ha2|]. split; [eexists; reflexivity|]. rewrite Ha2. reflexivity.
Qed.


(** ** Witnesses of the serialization and clean-up properties *)

Ltac finite_in_inj :=
  let a := fresh "a" in let b := fresh "b" in
  let Ha := fresh "Ha" in let Hb := fresh "Hb" in let Hab := fresh "Hab" in
  intros a b Ha Hb Hab; cbn in Ha, Hb;
  repeat (destruct Ha as [<-|Ha]); repeat (destruct Hb as [<-|Hb]);
  try contradiction; first [reflexivity | vm_compute in Hab; discriminate].

Lemma gb_word_round_trip_witness :
  (0 <= 300 < 2 ^ 64)%Z
  /\ read_gb_word (mk_istream (write_gb_word 300 ++ [7%Z]) true)
     = Ok (300%Z, mk_istream [7%Z] true).
Proof. split; [lia | apply (gb_word_round_trip 300 [7%Z]); lia]. Defined.

Lemma write_gb_word_format_witness :
  (0 <= 300 < 2 ^ 64)%Z
  /\ exists pre last, write_gb_word 300 = pre ++ [last] /\ (0 <= last < 128)%Z
       /\ Forall is_cont_byte pre /\ (List.length pre < 10)%nat.
Proof. split; [lia | apply (write_gb_word_format 300); lia]. Defined.

Lemma read_gb_word_unterminated_witness :
  Forall is_cont_byte (repeat 200%Z 10)
  /\ read_gb_word (mk_istream (repeat 200%Z 10 ++ [1%Z]) true)
     = Throw "input number too large"
  /\ read_gb_word (mk_istream [200%Z; 129%Z] true)
     = Throw "unexpected end of input stream".
Proof.
  assert (H : Forall is_cont_byte (repeat 200%Z 10)) by (cbn; repeat constructor; lia).
  assert (H' : Forall is_cont_byte [200%Z; 129%Z]) by (repeat constructor; lia).
  split; [exact H|]. split.
  - exact (proj1 (read_gb_word_unterminated (repeat 200%Z 10) [1%Z] H) eq_refl).
  - apply (proj2 (read_gb_word_unterminated [200%Z; 129%Z] [] H')). cbn. lia.
Defined.

Lemma gb_string_round_trip_witness :
  Forall is_byte [65; 0; 92; 66]%Z /\ (List.length [65; 0; 92; 66]%Z < 10)%nat
  /\ read_gb_string 10 (mk_istream (write_gb_string [65; 0; 92; 66]%Z ++ [7%Z]) true)
     = Some ([65; 0; 92; 66]%Z, mk_istream [7%Z] true).
Proof.
  assert (H : Forall is_byte [65; 0; 92; 66]%Z) by (repeat constructor; lia).
  split; [exact H|]. split; [cbn; lia|].
  apply (gb_string_round_trip [65; 0; 92; 66]%Z [7%Z] 10 H). cbn. lia.
Defined.

Lemma read_gb_string_unterminated_witness :
  Forall (fun b => (0 < b < 256)%Z) [65; 66]%Z
  /\ read_gb_string 20 (mk_istream [65; 66]%Z true) = None.
Proof.
  assert (H : Forall (fun b => (0 < b < 256)%Z) [65; 66]%Z) by (repeat constructor; lia).
  split; [exact H|]. exact (read_gb_string_unterminated [65; 66]%Z true H 20).
Defined.

Lemma write_string_ref_first_then_id_witness :
  nth (sample_string_no [65; 66]%Z) (string_map empty_container) false = false
  /\ exists c1,
    write_string_ref sample_string_no empty_container [65; 66]%Z
      = (write_gb_word 65 ++ write_gb_string [65; 66]%Z, c1)
    /\ nth 65 (string_map c1) false = true
    /\ write_string_ref sample_string_no c1 [65; 66]%Z = (write_gb_word 65, c1).
Proof.
  split; [reflexivity|].
  exact (write_string_ref_first_then_id sample_string_no empty_container [65; 66]%Z eq_refl).
Defined.

Lemma string_ref_round_trip_witness :
  exists c', read_string_refs 5 3 empty_container
               (mk_istream (fst (write_string_refs sample_string_no empty_container
                                   [[65]; [66; 1]; [65]]%Z) ++ []) true)
             = Ok ([[65]; [66; 1]; [65]]%Z, c', mk_istream [] true).
Proof.
  apply (string_ref_round_trip sample_string_no [[65]; [66; 1]; [65]]%Z [] 5).
  - finite_in_inj.
  - repeat constructor; lia.
  - repeat constructor.
  - repeat constructor.
Defined.


Lemma irep_round_trip_witness :
  exists c', reference_convert_in sample_string_no 40 empty_container
               (mk_istream (fst (reference_convert_out sample_string_no sample_irep_number
                                   empty_container sample_irep) ++ [9%Z]) true)
             = Ok (sample_irep, c', mk_istream [9%Z] true).
Proof.
  apply (irep_round_trip sample_string_no sample_irep_number sample_irep [9%Z] 40).
  - finite_in_inj.
  - finite_in_inj.
  - cbn. repeat constructor; lia.
  - cbn. repeat constructor.
  - reflexivity.
  - cbn. lia.
  - cbn. lia.
Defined.

Lemma clean_expr_gcc_conditional_witness :
  needs_cleaning (sym_int 1) = false /\ needs_cleaning (sym_int 2) = false
  /\ sample_clean_expr 3
       (mk_expr ID_side_effect (A_statement ID_gcc_conditional_expression)
          (typet_other 0) None [sym_int 1; sym_int 2]) [] true init_state
     = Some ((with_location (if_exprt_typed (conditional_cast (sym_int 1) bool_typet)
                               (sym_int 1) (sym_int 2) (typet_other 0)) None, []),
             init_state).
Proof.
  split; [reflexivity|]. split; [reflexivity|].
  exact (proj2 (clean_expr_gcc_conditional
           sample_remove_side_effect sample_remove_statement_expression
           sample_remove_function_call (fun _ => false) sample_convert_assign
           0 (typet_other 0) None (sym_int 1) (sym_int 2) [] true init_state)
           eq_refl eq_refl).
Defined.

Lemma clean_expr_assign_call_witness :
  needs_cleaning (sym_int 1) = false /\ expr_id call_int = ID_side_effect
  /\ statement_is call_int ID_function_call = true
  /\ clean_expr sample_remove_side_effect sample_remove_statement_expression
       sample_remove_function_call (fun _ => true) sample_convert_assign 2
       (mk_expr ID_side_effect (A_statement ID_assign) (typet_other 0) None
          [sym_int 1; call_int]) [] true init_state
     = Some ((call_int, [INSTR_other 2 [call_int]; ASSIGN (sym_int 1) call_int]),
             init_state).
Proof.
  split; [reflexivity|]. split; [reflexivity|]. split; [reflexivity|].
  exact (proj2 (clean_expr_assign_call
           sample_remove_side_effect sample_remove_statement_expression
           sample_remove_function_call (fun _ => true) sample_convert_assign
           0 (typet_other 0) None (sym_int 1) call_int [] true init_state
           eq_refl eq_refl eq_refl) eq_refl).
Defined.

Lemma clean_expr_boolean_operator_witness :
  is_boolean_operator ID_and = true /\ typet_other 0 <> bool_typet
  /\ existsb needs_cleaning [call_int; sym_int 1] = true
  /\ sample_clean_expr 1 (mk_expr ID_and A_none (typet_other 0) None [call_int; sym_int 1])
       [] true init_state = None.
Proof.
  split; [reflexivity|]. split; [discriminate|]. split; [reflexivity|].
  exact (proj1 (clean_expr_boolean_operator
           sample_remove_side_effect sample_remove_statement_expression
           sample_remove_function_call (fun _ => false) sample_convert_assign
           0 A_none None [] true init_state)
           ID_and (typet_other 0) [call_int; sym_int 1] eq_refl ltac:(discriminate) eq_refl).
Defined.
